(** * padloc core: the [Serializable] contract and its byte/text codecs

    A shallow embedding of [packages/core/src/encoding.ts].

    Conventions of the embedding.
    - A JavaScript string is a [string]: a sequence of code units, here
      restricted to the code units below 256.
    - A [Uint8Array] is a [list byte].
    - A call that can throw returns a [result]: [Ok v] for a normal return,
      [Throw e] for an exception [e].  A method that mutates [this] returns
      the new state of [this] next to its result, also when it throws.
    - An object is the list of its own enumerable string-keyed properties,
      in the order [Object.entries] reports them; a well-formed object has
      pairwise distinct keys.  (The runtime reports integer-like keys
      first; the statements go through [get] and [keys], which do not
      depend on the order.)
    - A subclass of [Serializable] is known by its name.  The accessor
      [type] has a getter and no setter, as the class declares it.
    - The embedding has two layers.  The first follows the method bodies on
      instances in good order: a subclass overrides [validate] only (the
      parameter [validate_of] gives each class its method), the members
      [toRaw], [fromRaw], [toJSON], [fromJSON] resolve to the methods of
      the base class, and a property named [__proto__] is treated like any
      other property.  The module [Runtime] follows the runtime where an
      instance is not in good order: it keeps the prototype of an instance,
      looks a method up before calling it (an own property shadows it, a
      subclass may override it) and gives [__proto__] to the accessor
      inherited from [Object.prototype].  The statements on the assignment
      of [fromRaw], on the values [toRaw] stores and on the round trip
      through bytes are made on [Runtime].
    - What the platform supplies ([JSON.stringify], [JSON.parse],
      [TextEncoder], [TextDecoder]) is a parameter of the development,
      gathered in the record [Platform]; the module [Reference] is an
      executable platform on a fragment. *)

From Stdlib Require Import String Ascii List ZArith NArith Lia Bool Arith
  PeanoNat DecimalString.
From Stdlib.Strings Require Import Byte.
From Stdlib Require DecimalNat.
Import ListNotations.
Open Scope string_scope.
Open Scope nat_scope.

Set Implicit Arguments.
Set Warnings "-register-all".

(** ** Exceptions and results *)

Inductive ErrorCode := ENCODING_ERROR.

(** Modelled from the spec: the class [Err] of [./error], which is not among
    the sources; "a single error kind, carrying an optional human-readable
    detail message".  The other constructors are the platform's own error
    types. *)
Inductive exn :=
| Err (code : ErrorCode) (message : option string)
| TypeError (message : string)
| SyntaxError (message : string)
| RangeError (message : string).

(** [e.toString()]. *)
Definition exn_toString (e : exn) : string :=
  match e with
  | Err _ None => "Error"
  | Err _ (Some m) => "Error: " ++ m
  | TypeError m => "TypeError: " ++ m
  | SyntaxError m => "SyntaxError: " ++ m
  | RangeError m => "RangeError: " ++ m
  end.

Inductive result (A : Type) :=
| Ok (a : A)
| Throw (e : exn).
Arguments Ok {A} a.
Arguments Throw {A} e.

Definition bind {A B} (m : result A) (k : A -> result B) : result B :=
  match m with
  | Ok a => k a
  | Throw e => Throw e
  end.

Notation "'let*' x ':=' m 'in' k" := (bind m (fun x => k))
  (at level 10, x name, m at level 100, k at level 200).

(** [try { body } catch (e) { handler(e) }]. *)
Definition try_catch {A} (body : result A) (handler : exn -> result A) : result A :=
  match body with
  | Ok a => Ok a
  | Throw e => handler e
  end.

(** The handler every codec of the file installs:
    [throw new Err(ErrorCode.ENCODING_ERROR, e.toString())]. *)
Definition rethrow_encoding {A} (e : exn) : result A :=
  Throw (Err ENCODING_ERROR (Some (exn_toString e))).

Definition is_encoding_error {A} (r : result A) : Prop :=
  exists m, r = Throw (Err ENCODING_ERROR m).

(** ** Numbers and typed arrays *)

(** Storing a number into a [Uint8Array] element: [NaN] (here [None]) is
    stored as 0, an integer modulo 256. *)
Definition ToUint8 (x : option Z) : byte :=
  match x with
  | None => x00
  | Some z => match Byte.of_N (Z.to_N (z mod 256)) with
              | Some b => b
              | None => x00
              end
  end.

(** [new Uint8Array(n)]: [n] zero bytes. *)
Definition new_Uint8Array (n : nat) : list byte := repeat x00 n.

(** [bytes[i] = b]; a store outside the array is ignored. *)
Fixpoint store (bytes : list byte) (i : nat) (b : byte) : list byte :=
  match bytes, i with
  | [], _ => []
  | _ :: tl, O => b :: tl
  | hd :: tl, S j => hd :: store tl j b
  end.

(** [res.set(arr, offset)]: throws a [RangeError] when [arr] does not fit. *)
Definition typed_set (res arr : list byte) (offset : nat) : result (list byte) :=
  if length arr + offset <=? length res
  then Ok (firstn offset res ++ arr ++ skipn (offset + length arr) res)%list
  else Throw (RangeError "offset is out of bounds").

(** ** [parseInt(s, 16)] and [Number.prototype.toString(16)] *)

Definition code (c : ascii) : N := N_of_ascii c.

(** The white space [parseInt] skips, among the code units below 256. *)
Definition is_white_space (c : ascii) : bool :=
  let n := code c in
  ((9 <=? n) && (n <=? 13) || (n =? 32) || (n =? 160))%N.

Definition hex_value (c : ascii) : option N :=
  let n := code c in
  if ((48 <=? n) && (n <=? 57))%N then Some (n - 48)%N
  else if ((97 <=? n) && (n <=? 102))%N then Some (n - 87)%N
  else if ((65 <=? n) && (n <=? 70))%N then Some (n - 55)%N
  else None.

Definition is_hex (c : ascii) : bool :=
  match hex_value c with Some _ => true | None => false end.

Fixpoint skip_white_space (s : string) : string :=
  match s with
  | String c tl => if is_white_space c then skip_white_space tl else s
  | EmptyString => s
  end.

(** The longest prefix of hexadecimal digits, read as a number; [None] when
    that prefix is empty. *)
Fixpoint hex_prefix (s : string) (acc : option N) : option N :=
  match s with
  | String c tl =>
      match hex_value c with
      | Some d => hex_prefix tl (Some (match acc with
                                       | Some a => a * 16 + d
                                       | None => d
                                       end)%N)
      | None => acc
      end
  | EmptyString => acc
  end.

Definition strip_0x (s : string) : string :=
  match s with
  | String "0" (String "x" tl) => tl
  | String "0" (String "X" tl) => tl
  | _ => s
  end.

(** [parseInt(s, 16)]; [None] is [NaN]. *)
Definition parseInt16 (s : string) : option Z :=
  let s1 := skip_white_space s in
  let '(sign, s2) :=
    match s1 with
    | String "-" tl => ((-1)%Z, tl)
    | String "+" tl => (1%Z, tl)
    | _ => (1%Z, s1)
    end in
  match hex_prefix (strip_0x s2) None with
  | Some n => Some (sign * Z.of_N n)%Z
  | None => None
  end.

Definition lower_hex_digit (d : N) : ascii :=
  ascii_of_N (if (d <? 10)%N then 48 + d else 87 + d)%N.

Fixpoint hex_digits (fuel : nat) (n : N) (acc : string) : string :=
  match fuel with
  | O => acc
  | S f => if (n =? 0)%N then acc
           else hex_digits f (n / 16)%N (String (lower_hex_digit (n mod 16)%N) acc)
  end.

(** [n.toString(16)] for a non-negative integer [n]. *)
Definition toString16 (n : N) : string :=
  if (n =? 0)%N then "0" else hex_digits (N.size_nat n) n "".

(** [s.substring(a, b)]. *)
Definition js_substring (a b : nat) (s : string) : string :=
  let a' := Nat.min a (String.length s) in
  let b' := Nat.min b (String.length s) in
  String.substring (Nat.min a' b') (Nat.max a' b' - Nat.min a' b') s.

(** ** [hexToBytes], [bytesToHex], [concatBytes], [equalBytes] *)

(** The loop [for (let i = 0; i < bytes.length; i++) bytes[i] = parseInt(...)];
    [fuel] bounds the number of iterations left. *)
Fixpoint hexToBytes_loop (str : string) (fuel i : nat) (bytes : list byte) : list byte :=
  match fuel with
  | O => bytes
  | S f =>
      if i <? length bytes
      then hexToBytes_loop str f (S i)
             (store bytes i (ToUint8 (parseInt16 (js_substring (i * 2) (i * 2 + 2) str))))
      else bytes
  end.

(** [str.length / 2] is a fraction for an odd length; the array constructor
    truncates it. *)
Definition hexToBytes (str : string) : result (list byte) :=
  try_catch
    (let bytes := new_Uint8Array (String.length str / 2) in
     Ok (hexToBytes_loop str (length bytes) 0 bytes))
    rethrow_encoding.

Definition bytesToHex (bytes : list byte) : result string :=
  try_catch
    (Ok (fold_left
           (fun str b =>
              let s := toString16 (Byte.to_N b) in
              str ++ (if String.length s =? 1 then "0" ++ s else s))
           bytes ""))
    rethrow_encoding.

Fixpoint concatBytes_loop (arrs : list (list byte)) (res : list byte) (offset : nat)
  : result (list byte) :=
  match arrs with
  | [] => Ok res
  | arr :: rest =>
      let* res' := typed_set res arr offset in
      concatBytes_loop rest res' (offset + length arr)
  end.

Definition concatBytes (arrs : list (list byte)) : result (list byte) :=
  let length := fold_left (fun len arr => len + length arr) arrs 0 in
  let res := new_Uint8Array length in
  concatBytes_loop arrs res 0.

Fixpoint equalBytes_loop (a b : list byte) : bool :=
  match a, b with
  | x :: a', y :: b' => if Byte.eqb x y then equalBytes_loop a' b' else false
  | _, _ => true
  end.

Definition equalBytes (a b : list byte) : bool :=
  if negb (length a =? length b) then false else equalBytes_loop a b.

(** ** Values and objects *)

(** The values an entity property or a raw structured value can hold.
    [VSer cls fields] is an instance of the subclass [cls] of [Serializable]
    ([val instanceof Serializable] holds of it and of nothing else); [VObj]
    is a plain object; [VArr] is an array ([Array.isArray]). *)
Inductive value :=
| VUndefined
| VNull
| VBool (b : bool)
| VNum (n : Z)
| VStr (s : string)
| VArr (elems : list value)
| VObj (fields : list (string * value))
| VSer (cls : string) (fields : list (string * value)).

Abbreviation props := (list (string * value)).

Definition keys (o : props) : list string := map fst o.

(** [o[k]] for an own property. *)
Fixpoint get (k : string) (o : props) : option value :=
  match o with
  | [] => None
  | (k', v) :: tl => if String.eqb k k' then Some v else get k tl
  end.

Definition has_own (k : string) (o : props) : bool :=
  match get k o with Some _ => true | None => false end.

(** [o[k] = v] on an ordinary data property: an existing property keeps its
    place, a new one comes last. *)
Fixpoint set_prop (o : props) (k : string) (v : value) : props :=
  match o with
  | [] => [(k, v)]
  | (k', v') :: tl =>
      if String.eqb k k' then (k', v) :: tl else (k', v') :: set_prop tl k v
  end.

(** [prop.startsWith("_")]. *)
Definition is_private (prop : string) : bool := String.prefix "_" prop.

(** [exclude.includes(prop)]. *)
Definition includes (exclude : list string) (prop : string) : bool :=
  existsb (String.eqb prop) exclude.

(** ** [Serializable.toRaw] *)

(** [this.toRaw(exclude)], where [this] is a [Serializable] instance.  The
    nested calls [val.toRaw()] and [each.toRaw()] take no argument, so
    [exclude] is the default [[]] there; they dispatch to this same method
    (subclasses that override [toRaw] are not among the sources). *)
Fixpoint toRaw (exclude : list string) (this : value) {struct this} : props :=
  match this with
  | VSer _ fields =>
      fold_left
        (fun raw '(prop, val) =>
           if is_private prop || includes exclude prop then raw
           else
             match val with
             | VSer _ _ => set_prop raw prop (VObj (toRaw [] val))
             | VArr elems =>
                 set_prop raw prop
                   (VArr (map (fun each =>
                                 match each with
                                 | VSer _ _ => VObj (toRaw [] each)
                                 | _ => each
                                 end) elems))
             | _ => set_prop raw prop val
             end)
        fields []
  | _ => []
  end.

(** What [toRaw] stores for a property holding [val]. *)
Definition raw_of_each (each : value) : value :=
  match each with
  | VSer _ _ => VObj (toRaw [] each)
  | _ => each
  end.

Definition raw_of (val : value) : value :=
  match val with
  | VSer _ _ => VObj (toRaw [] val)
  | VArr elems => VArr (map raw_of_each elems)
  | _ => val
  end.

(** ** Instances of [Serializable] *)

(** A live instance: its class and its own properties.  The members the
    class declares live on the prototype: the accessor [type], which has a
    getter and no setter, and the methods. *)
Record Serializable := {
  cls : string;
  own : props
}.

Definition instance (this : Serializable) : value := VSer (cls this) (own this).

(** A fresh instance of a class that sets no property in its constructor. *)
Definition fresh (c : string) : Serializable := {| cls := c; own := [] |}.

(** The own enumerable properties [Object.assign] reads from its source:
    those of an object, the indices of an array or of a string, and none
    for [undefined], [null], a boolean or a number. *)
Definition index_key (i : nat) : string := NilEmpty.string_of_uint (Nat.to_uint i).

Fixpoint indexed (i : nat) (elems : list value) : props :=
  match elems with
  | [] => []
  | v :: tl => (index_key i, v) :: indexed (S i) tl
  end.

Fixpoint chars (s : string) : list value :=
  match s with
  | EmptyString => []
  | String c tl => VStr (String c EmptyString) :: chars tl
  end.

Definition own_entries (raw : value) : props :=
  match raw with
  | VObj fields => fields
  | VSer _ fields => fields
  | VArr elems => indexed 0 elems
  | VStr s => indexed 0 (chars s)
  | _ => []
  end.

(** [this[k] = v] as [Object.assign] performs it on an instance: an own
    property is overwritten; otherwise the prototype is consulted, where
    [type] is an accessor without a setter, so that the assignment throws;
    any other name becomes a new own property. *)
Definition put (this : props) (k : string) (v : value) : result props :=
  if has_own k this then Ok (set_prop this k v)
  else if String.eqb k "type"
       then Throw (TypeError "Cannot set property type which has only a getter")
       else Ok (set_prop this k v).

(** [Object.assign(this, raw)]: the properties are written one by one, in
    order; the ones written before a failing one stay written. *)
Fixpoint Object_assign (this : props) (entries : props) : result unit * props :=
  match entries with
  | [] => (Ok tt, this)
  | (k, v) :: rest =>
      match put this k v with
      | Ok this' => Object_assign this' rest
      | Throw e => (Throw e, this)
      end
  end.

(** What the platform supplies.  [JSON_stringify] is applied to objects
    only ([toRaw] and [marshal] pass an [object]). *)
Record Platform := {
  JSON_stringify : props -> result string;
  JSON_parse : string -> result value;
  TextEncoder_encode : string -> result (list byte);
  TextDecoder_decode : string -> list byte -> result string
}.

Section Contract.

(** [validate_of c o]: the method [validate] of class [c] run on an
    instance whose own properties are [o]; it returns a boolean or
    throws.  The base class returns [true]; subclasses override it. *)
Variable validate_of : string -> props -> result bool.

Variable P : Platform.

(** [this.validate()]: an own property of that name, which holds data,
    shadows the method and the call throws. *)
Definition validate (this : Serializable) : result bool :=
  if has_own "validate" (own this)
  then Throw (TypeError "this.validate is not a function")
  else validate_of (cls this) (own this).

(** A method that mutates [this]: it returns normally or throws, and
    leaves [this] in a new state either way. *)
Definition mutator := Serializable -> result unit * Serializable.

(** [this.fromRaw(raw)].  [console.log] only prints; evaluating its
    argument [this.type] can at most throw inside the [try], which the
    [catch] turns into the same error as the [throw] that follows. *)
Definition fromRaw (raw : value) : mutator := fun this =>
  match Object_assign (own this) (own_entries raw) with
  | (Throw e, o) => (Throw e, {| cls := cls this; own := o |})
  | (Ok _, o) =>
      let this' := {| cls := cls this; own := o |} in
      (try_catch
         (let* valid := validate this' in
          if negb valid then Throw (Err ENCODING_ERROR None) else Ok tt)
         (fun _ => Throw (Err ENCODING_ERROR None)),
       this')
  end.

Definition fromJSON (json : string) : mutator := fun this =>
  match JSON_parse P json with
  | Ok raw => fromRaw raw this
  | Throw e => (Throw e, this)
  end.

Definition marshal (obj : props) : result string :=
  try_catch (JSON_stringify P obj) rethrow_encoding.

Definition unmarshal (str : string) : result value :=
  try_catch (JSON_parse P str) rethrow_encoding.

Definition stringToBytes (str : string) : result (list byte) :=
  try_catch (TextEncoder_encode P str) rethrow_encoding.

Definition bytesToString (bytes : list byte) : result string :=
  try_catch (TextDecoder_decode P "utf-8" bytes) rethrow_encoding.

(** The composition the specification gives for [fromJSON]:
    [fromRaw(unmarshal(text))]. *)
Definition spec_fromJSON (text : string) : mutator := fun this =>
  match unmarshal text with
  | Ok raw => fromRaw raw this
  | Throw e => (Throw e, this)
  end.

End Contract.

(** ** A reference platform

    An executable model of the platform functions on a fragment: JSON whose
    numbers are integers written without fraction or exponent, and UTF-8
    restricted to the code points below 256.  A number written with a
    fraction or an exponent is outside the fragment and is reported as a
    syntax error. *)
Module Reference.

Definition char (n : N) : ascii := ascii_of_N n.

Fixpoint concat_with (sep : string) (l : list string) : string :=
  match l with
  | [] => ""
  | [x] => x
  | x :: tl => x ++ sep ++ concat_with sep tl
  end.

Definition hex4 (n : N) : string :=
  String (lower_hex_digit (n / 4096)) (String (lower_hex_digit (n / 256 mod 16))
    (String (lower_hex_digit (n / 16 mod 16)) (String (lower_hex_digit (n mod 16)) ""))).

Definition dquote : ascii := char 34.
Definition backslash : ascii := char 92.

Definition escaped (c : ascii) : string := String backslash (String c "").

Definition escape (c : ascii) : string :=
  let n := code c in
  if (n =? 34)%N then escaped dquote
  else if (n =? 92)%N then escaped backslash
  else if (n =? 8)%N then escaped "b"
  else if (n =? 12)%N then escaped "f"
  else if (n =? 10)%N then escaped "n"
  else if (n =? 13)%N then escaped "r"
  else if (n =? 9)%N then escaped "t"
  else if (n <? 32)%N then escaped "u" ++ hex4 n
  else String c "".

Fixpoint escape_all (s : string) : string :=
  match s with
  | EmptyString => ""
  | String c tl => escape c ++ escape_all tl
  end.

Definition quote (s : string) : string :=
  String dquote (escape_all s ++ String dquote "").

Definition digit_char (d : N) : ascii := ascii_of_N (48 + d).

Fixpoint digits (fuel : nat) (n : N) (acc : string) : string :=
  match fuel with
  | O => acc
  | S f => if (n =? 0)%N then acc
           else digits f (n / 10)%N (String (digit_char (n mod 10)%N) acc)
  end.

Definition natural_to_string (n : N) : string :=
  if (n =? 0)%N then "0" else digits (N.to_nat (N.size n)) n "".

(** The decimal text of an integer, as [JSON.stringify] writes the integers
    below [10^21] in absolute value. *)
Definition number_to_string (n : Z) : string :=
  if (n <? 0)%Z then String "-" (natural_to_string (Z.to_N (- n)))
  else natural_to_string (Z.to_N n).

(** [JSON.stringify]; [None] is [undefined].  An instance is serialized
    through its [toJSON] method, whose result is a string; the instance is
    taken to inherit the base [toJSON] and [toRaw], and so are the
    instances nested in it.  An own data property [toJSON] is no function:
    the instance is then written like a plain object. *)
Fixpoint stringify (fuel : nat) (v : value) : option string :=
  match fuel with
  | O => None
  | S f =>
      let member (kv : string * value) :=
        match stringify f (snd kv) with
        | Some s => [quote (fst kv) ++ ":" ++ s]
        | None => []
        end in
      match v with
      | VUndefined => None
      | VNull => Some "null"
      | VBool true => Some "true"
      | VBool false => Some "false"
      | VNum n => Some (number_to_string n)
      | VStr s => Some (quote s)
      | VArr elems =>
          Some ("[" ++ concat_with ","
                  (map (fun each => match stringify f each with
                                    | Some s => s
                                    | None => "null"
                                    end) elems) ++ "]")
      | VObj fields => Some ("{" ++ concat_with "," (flat_map member fields) ++ "}")
      | VSer _ fields =>
          if has_own "toJSON" fields
          then Some ("{" ++ concat_with "," (flat_map member fields) ++ "}")
          else match stringify f (VObj (toRaw [] v)) with
               | Some json => Some (quote json)
               | None => None
               end
      end
  end.

Fixpoint depth (v : value) : nat :=
  match v with
  | VArr elems => S (fold_right (fun x d => Nat.max (depth x) d) 0 elems)
  | VObj fields => S (fold_right (fun kv d => Nat.max (depth (snd kv)) d) 0 fields)
  | VSer _ fields => S (S (fold_right (fun kv d => Nat.max (depth (snd kv)) d) 0 fields))
  | _ => 1
  end.

Definition JSON_stringify (obj : props) : result string :=
  match stringify (2 * depth (VObj obj)) (VObj obj) with
  | Some s => Ok s
  | None => Throw (TypeError "not serializable")
  end.

Definition is_json_space (c : ascii) : bool :=
  let n := code c in ((n =? 32) || (n =? 9) || (n =? 10) || (n =? 13))%N.

Fixpoint skip_ws (s : string) : string :=
  match s with
  | String c tl => if is_json_space c then skip_ws tl else s
  | EmptyString => s
  end.

Definition unescape (e : ascii) : option ascii :=
  let n := code e in
  if ((n =? 34) || (n =? 92) || (n =? 47))%N then Some e
  else if Ascii.eqb e "b" then Some (char 8)
  else if Ascii.eqb e "f" then Some (char 12)
  else if Ascii.eqb e "n" then Some (char 10)
  else if Ascii.eqb e "r" then Some (char 13)
  else if Ascii.eqb e "t" then Some (char 9)
  else None.

(** The characters of a string literal after its opening quote, and what
    follows the closing quote. *)
Fixpoint parse_string_body (s : string) : option (string * string) :=
  let cons c r :=
    match r with
    | Some (str, rest) => Some (String c str, rest)
    | None => None
    end in
  match s with
  | EmptyString => None
  | String c tl =>
      if (code c =? 34)%N then Some ("", tl)
      else if (code c <? 32)%N then None
      else if (code c =? 92)%N then
        match tl with
        | String "u" (String h1 (String h2 (String h3 (String h4 tl')))) =>
            match hex_value h1, hex_value h2, hex_value h3, hex_value h4 with
            | Some 0%N, Some 0%N, Some d3, Some d4 =>
                cons (char (d3 * 16 + d4)) (parse_string_body tl')
            | _, _, _, _ => None
            end
        | String e tl' =>
            match unescape e with
            | Some c' => cons c' (parse_string_body tl')
            | None => None
            end
        | EmptyString => None
        end
      else cons c (parse_string_body tl)
  end.

Definition digit_value (c : ascii) : option N :=
  let n := code c in
  if ((48 <=? n) && (n <=? 57))%N then Some (n - 48)%N else None.

Fixpoint read_digits (s : string) (acc : N) : N * string :=
  match s with
  | String c tl =>
      match digit_value c with
      | Some d => read_digits tl (acc * 10 + d)%N
      | None => (acc, s)
      end
  | EmptyString => (acc, s)
  end.

Definition starts_fraction_or_exponent (s : string) : bool :=
  match s with
  | String c _ => Ascii.eqb c "." || Ascii.eqb c "e" || Ascii.eqb c "E"
  | EmptyString => false
  end.

(** An integer literal: [0] or a non-zero digit followed by digits. *)
Definition parse_natural (s : string) : option (N * string) :=
  match s with
  | String c tl =>
      match digit_value c with
      | Some 0%N => if starts_fraction_or_exponent tl then None else Some (0%N, tl)
      | Some d =>
          let '(n, rest) := read_digits tl d in
          if starts_fraction_or_exponent rest then None else Some (n, rest)
      | None => None
      end
  | EmptyString => None
  end.

Fixpoint drop (n : nat) (s : string) : string :=
  match n, s with
  | S n', String _ tl => drop n' tl
  | _, _ => s
  end.

Definition object_of (members : props) : props :=
  fold_left (fun o '(k, v) => set_prop o k v) members [].

(** The rest of the text after the token [c], white space skipped. *)
Definition eat (c : ascii) (s : string) : option string :=
  match skip_ws s with
  | String c' tl => if Ascii.eqb c' c then Some tl else None
  | EmptyString => None
  end.

(** The elements of an array after the first bracket, each read by
    [item], up to the closing bracket. *)
Fixpoint elements (item : string -> option (value * string)) (n : nat) (s : string)
  : option (list value * string) :=
  match n with
  | O => None
  | S n' =>
      match item s with
      | Some (v, r) =>
          match eat "," r with
          | Some r' =>
              match elements item n' r' with
              | Some (vs, r'') => Some (v :: vs, r'')
              | None => None
              end
          | None =>
              match eat "]" r with
              | Some r' => Some ([v], r')
              | None => None
              end
          end
      | None => None
      end
  end.

Definition key (s : string) : option (string * string) :=
  match eat dquote s with
  | Some s1 => parse_string_body s1
  | None => None
  end.

Fixpoint members (item : string -> option (value * string)) (n : nat) (s : string)
  : option (props * string) :=
  match n with
  | O => None
  | S n' =>
      match key s with
      | Some (k, s2) =>
          match eat ":" s2 with
          | Some s3 =>
              match item s3 with
              | Some (v, r) =>
                  match eat "," r with
                  | Some r' =>
                      match members item n' r' with
                      | Some (kvs, r'') => Some ((k, v) :: kvs, r'')
                      | None => None
                      end
                  | None =>
                      match eat "}" r with
                      | Some r' => Some ([(k, v)], r')
                      | None => None
                      end
                  end
              | None => None
              end
          | None => None
          end
      | None => None
      end
  end.

Fixpoint parse_value (fuel : nat) (s : string) : option (value * string) :=
  match fuel with
  | O => None
  | S f =>
      match skip_ws s with
      | EmptyString => None
      | String c tl =>
          if String.prefix "null" (String c tl) then Some (VNull, drop 4 (String c tl))
          else if String.prefix "true" (String c tl) then Some (VBool true, drop 4 (String c tl))
          else if String.prefix "false" (String c tl) then Some (VBool false, drop 5 (String c tl))
          else if (code c =? 34)%N then
            match parse_string_body tl with
            | Some (str, rest) => Some (VStr str, rest)
            | None => None
            end
          else if Ascii.eqb c "-" then
            match parse_natural tl with
            | Some (n, rest) => Some (VNum (- Z.of_N n), rest)
            | None => None
            end
          else if Ascii.eqb c "[" then
            match eat "]" tl with
            | Some rest => Some (VArr [], rest)
            | None =>
                match elements (parse_value f) (String.length tl) tl with
                | Some (vs, rest) => Some (VArr vs, rest)
                | None => None
                end
            end
          else if Ascii.eqb c "{" then
            match eat "}" tl with
            | Some rest => Some (VObj [], rest)
            | None =>
                match members (parse_value f) (String.length tl) tl with
                | Some (kvs, rest) => Some (VObj (object_of kvs), rest)
                | None => None
                end
            end
          else
            match parse_natural (String c tl) with
            | Some (n, rest) => Some (VNum (Z.of_N n), rest)
            | None => None
            end
      end
  end.

Definition JSON_parse (text : string) : result value :=
  match parse_value (S (String.length text)) text with
  | Some (v, rest) =>
      match skip_ws rest with
      | EmptyString => Ok v
      | _ => Throw (SyntaxError "Unexpected non-whitespace character after JSON")
      end
  | None => Throw (SyntaxError "Unexpected token in JSON")
  end.

Definition byte_of_N (n : N) : byte :=
  match Byte.of_N n with Some b => b | None => x00 end.

(** UTF-8 of the code points below 256: one byte below 128, two above. *)
Fixpoint utf8_encode (s : string) : list byte :=
  match s with
  | EmptyString => []
  | String c tl =>
      let n := code c in
      if (n <? 128)%N then byte_of_N n :: utf8_encode tl
      else byte_of_N (192 + n / 64) :: byte_of_N (128 + n mod 64) :: utf8_encode tl
  end.

(** A code point above 255 does not fit the strings of this embedding; the
    decoder writes [?] for each code unit of it, the replacement character
    U+FFFD included. *)
Definition substitute : ascii := "?".

Definition in_range (lo hi : N) (b : byte) : bool :=
  let n := Byte.to_N b in ((lo <=? n) && (n <=? hi))%N.

Definition code_point_char (cp : N) : ascii :=
  if (cp <? 256)%N then char cp else substitute.

(** The non-fatal UTF-8 decoder: it never fails; a malformed sequence gives
    one replacement character and decoding goes on with the byte that
    broke it. *)
Fixpoint utf8_decode (bytes : list byte) : string :=
  match bytes with
  | [] => ""
  | b :: rest =>
      let n := Byte.to_N b in
      if (n <? 128)%N then String (char n) (utf8_decode rest)
      else if in_range 194 223 b then
        match rest with
        | b2 :: rest2 =>
            if in_range 128 191 b2
            then String (code_point_char ((n - 192) * 64 + (Byte.to_N b2 - 128)))
                        (utf8_decode rest2)
            else String substitute (utf8_decode rest)
        | [] => String substitute ""
        end
      else if in_range 224 239 b then
        match rest with
        | b2 :: rest2 =>
            if in_range (if (n =? 224)%N then 160 else 128)
                        (if (n =? 237)%N then 159 else 191) b2
            then
              match rest2 with
              | b3 :: rest3 =>
                  if in_range 128 191 b3
                  then String substitute (utf8_decode rest3)
                  else String substitute (utf8_decode rest2)
              | [] => String substitute ""
              end
            else String substitute (utf8_decode rest)
        | [] => String substitute ""
        end
      else if in_range 240 244 b then
        match rest with
        | b2 :: rest2 =>
            if in_range (if (n =? 240)%N then 144 else 128)
                        (if (n =? 244)%N then 143 else 191) b2
            then
              match rest2 with
              | b3 :: rest3 =>
                  if in_range 128 191 b3
                  then
                    match rest3 with
                    | b4 :: rest4 =>
                        if in_range 128 191 b4
                        then String substitute (String substitute (utf8_decode rest4))
                        else String substitute (utf8_decode rest3)
                    | [] => String substitute ""
                    end
                  else String substitute (utf8_decode rest2)
              | [] => String substitute ""
              end
            else String substitute (utf8_decode rest)
        | [] => String substitute ""
        end
      else String substitute (utf8_decode rest)
  end.

(** The byte order mark at the start of the input is dropped. *)
Definition strip_bom (bytes : list byte) : list byte :=
  match bytes with
  | b1 :: b2 :: b3 :: rest =>
      if ((Byte.to_N b1 =? 239) && (Byte.to_N b2 =? 187) && (Byte.to_N b3 =? 191))%N
      then rest else bytes
  | _ => bytes
  end.

Definition TextEncoder_encode (s : string) : result (list byte) := Ok (utf8_encode s).

(** [new TextDecoder(label).decode(bytes)] for the label [utf-8]; the other
    labels are outside the fragment. *)
Definition TextDecoder_decode (label : string) (bytes : list byte) : result string :=
  if String.eqb label "utf-8" then Ok (utf8_decode (strip_bom bytes))
  else Throw (RangeError "encoding label outside the fragment").

Definition platform : Platform :=
  Build_Platform JSON_stringify JSON_parse TextEncoder_encode TextDecoder_decode.

End Reference.

(** ** Specification-level descriptions of the hexadecimal codec *)

(** The byte a pair of hexadecimal characters denotes, pair after pair. *)
Fixpoint bytes_of_hex_pairs (s : string) : list byte :=
  match s with
  | String a (String b tl) =>
      match hex_value a, hex_value b with
      | Some h, Some l => Reference.byte_of_N (h * 16 + l) :: bytes_of_hex_pairs tl
      | _, _ => []
      end
  | _ => []
  end.

(** Two lowercase hexadecimal characters for one byte, zero-padded. *)
Definition two_lower_hex (b : byte) : string :=
  let n := Byte.to_N b in
  String (lower_hex_digit (n / 16)) (String (lower_hex_digit (n mod 16)) "").

Fixpoint hex_of_bytes (bytes : list byte) : string :=
  match bytes with
  | [] => ""
  | b :: tl => two_lower_hex b ++ hex_of_bytes tl
  end.

Fixpoint all_hex (s : string) : bool :=
  match s with
  | EmptyString => true
  | String c tl => is_hex c && all_hex tl
  end.

(** What [hexToBytes] stores at index [i]. *)
Definition pair_byte (str : string) (i : nat) : byte :=
  ToUint8 (parseInt16 (js_substring (i * 2) (i * 2 + 2) str)).

Fixpoint decode_pairs (s : string) : list byte :=
  match s with
  | String a (String b tl) =>
      ToUint8 (parseInt16 (String a (String b ""))) :: decode_pairs tl
  | _ => []
  end.

(** ** Auxiliary definitions for the statements *)

Definition is_lower_hex (c : ascii) : bool :=
  let n := code c in
  ((48 <=? n) && (n <=? 57) || (97 <=? n) && (n <=? 102))%N.

Fixpoint all_lower_hex (s : string) : bool :=
  match s with
  | EmptyString => true
  | String c tl => is_lower_hex c && all_lower_hex tl
  end.

(** The letters [A]-[F] replaced by [a]-[f], every other character kept. *)
Definition lower_hex_letter (c : ascii) : ascii :=
  let n := code c in
  if ((65 <=? n) && (n <=? 70))%N then ascii_of_N (n + 32) else c.

Fixpoint lower_hex_letters (s : string) : string :=
  match s with
  | EmptyString => EmptyString
  | String c tl => String (lower_hex_letter c) (lower_hex_letters tl)
  end.

(** One turn of the loop of [toRaw]. *)
Definition toRaw_step (exclude : list string) (raw : props) (entry : string * value) : props :=
  if is_private (fst entry) || includes exclude (fst entry) then raw
  else set_prop raw (fst entry) (raw_of (snd entry)).

Definition vault_example : Serializable :=
  {| cls := "vault";
     own := [("name", VStr "work");
             ("owner", VSer "member" [("name", VStr "ann"); ("_key", VNum 7)]);
             ("items", VArr [VSer "item" [("name", VStr "door")]; VNum 3])] |}.

(** [validate] of the base class. *)
Definition base_validate (c : string) (o : props) : result bool := Ok true.

(** A class table for the examples: a [named] entity needs a non-empty
    string [name], a [session] needs its private [_token], an [account]
    needs a string [email]; the other classes keep the base method. *)
Definition example_validate (c : string) (o : props) : result bool :=
  if String.eqb c "named" then
    Ok (match get "name" o with
        | Some (VStr s) => negb (String.eqb s "")
        | _ => false
        end)
  else if String.eqb c "session" then Ok (has_own "_token" o)
  else if String.eqb c "account" then
    Ok (match get "email" o with Some (VStr _) => true | _ => false end)
  else Ok true.

(** Whether [toRaw] changes a property value: it is an instance, or an
    array with an instance among its elements. *)
Definition holds_entity (val : value) : bool :=
  match val with
  | VSer _ _ => true
  | VArr elems => existsb (fun each => match each with VSer _ _ => true | _ => false end) elems
  | _ => false
  end.

Definition account_example : Serializable :=
  {| cls := "account";
     own := [("email", VStr "a@b.com"); ("tags", VArr [VStr "x"; VNum 2]);
             ("_session", VStr "s0")] |}.

(** ** The rest of the module: base64 compositions, [clone] *)

(** What [./base64] supplies, which is not among the sources, taken as a
    parameter: [toByteArray], [fromByteArray], [byteLength], [isBase64]. *)
Record Base64 := {
  toByteArray : string -> result (list byte);
  fromByteArray : list byte -> bool -> result string;
  byteLength : string -> result nat;
  isBase64 : string -> bool
}.

Section Compositions.

Variable B : Base64.
Variable P : Platform.

(** [bytesToBase64(inp, urlSafe)]; callers that omit [urlSafe] pass [true]. *)
Definition bytesToBase64 (inp : list byte) (urlSafe : bool) : result string :=
  try_catch (fromByteArray B inp urlSafe) rethrow_encoding.

Definition base64ToBytes (inp : string) : result (list byte) :=
  try_catch (toByteArray B inp) rethrow_encoding.

Definition stringToBase64 (str : string) (urlSafe : bool) : result string :=
  let* bytes := stringToBytes P str in
  bytesToBase64 bytes urlSafe.

Definition base64ToString (inp : string) : result string :=
  let* bytes := base64ToBytes inp in
  bytesToString P bytes.

Definition base64ByteLength (inp : string) : result nat := byteLength B inp.

Definition base64ToHex (b64 : string) : result string :=
  let* bytes := base64ToBytes b64 in
  bytesToHex bytes.

Definition hexToBase64 (hex : string) : result string :=
  let* bytes := hexToBytes hex in
  bytesToBase64 bytes true.

End Compositions.

(** [c.toLowerCase()] on the code units below 256: the letters [A]-[Z] and
    the accented capitals 192-214 and 216-222 move up by 32. *)
Definition lower_char (c : ascii) : ascii :=
  let n := code c in
  if ((65 <=? n) && (n <=? 90) || (192 <=? n) && (n <=? 214)
      || (216 <=? n) && (n <=? 222))%N
  then ascii_of_N (n + 32)
  else c.

Fixpoint toLowerCase (s : string) : string :=
  match s with
  | EmptyString => EmptyString
  | String c tl => String (lower_char c) (toLowerCase tl)
  end.

Section Clone.

Variable validate_of : string -> props -> result bool.

(** [construct c]: the own properties of [new C()] for the class [C] named
    [c], as its constructor and field initialisers leave them; the base
    class sets none. *)
Variable construct : string -> props.

(** [this.clone()]: [new this.constructor().fromRaw(this.toRaw())]; the
    result is the new instance, [this] is only read. *)
Definition clone (this : Serializable) : result Serializable :=
  match fromRaw validate_of (VObj (toRaw [] (instance this)))
          {| cls := cls this; own := construct (cls this) |} with
  | (Ok _, copy) => Ok copy
  | (Throw e, _) => Throw e
  end.

End Clone.

(** The constructor of a class without initialisers. *)
Definition no_initialisers (c : string) : props := [].

(** A result that is a normal return or the encoding error. *)
Definition only_encoding_error {A} (r : result A) : Prop :=
  match r with
  | Ok _ => True
  | Throw e => exists m, e = Err ENCODING_ERROR m
  end.

Definition is_instance (v : value) : bool :=
  match v with VSer _ _ => true | _ => false end.

Definition folder_example : Serializable :=
  {| cls := "folder";
     own := [("meta", VObj [("owner", VSer "member" [("_key", VNum 7)])]);
             ("grid", VArr [VArr [VSer "item" [("name", VStr "door")]]])] |}.

Definition profile_example : Serializable :=
  {| cls := "account";
     own := [("email", VStr "a@b.com"); ("tags", VArr [VStr "x"; VNum 2])] |}.

(** What [clone] makes of [vault_example]. *)
Definition vault_copy : Serializable :=
  {| cls := "vault";
     own := [("name", VStr "work");
             ("owner", VObj [("name", VStr "ann")]);
             ("items", VArr [VObj [("name", VStr "door")]; VNum 3])] |}.

(** ** The methods as the runtime runs them

    The definitions above follow the method bodies on instances in good
    order.  This module follows the runtime where an instance is not: it
    keeps the prototype of the instance, looks every method up before it
    is called (an own property shadows it, a subclass may override it) and
    lets [Object.assign] meet the accessors [type] and [__proto__].
    Instances are extensible and their own properties writable; nested
    values have the prototype they were created with. *)
Module Runtime.

(** What an object inherits from: the prototype of a class, a value put
    there through [__proto__], or nothing. *)
Inductive prototype :=
| ClassProto (c : string)
| ValueProto (v : value)
| NullProto.

Record object := {
  proto : prototype;
  fields : props
}.

(** An instance of the class named [c] with the own properties [o]. *)
Definition instance_of (c : string) (o : props) : object :=
  {| proto := ClassProto c; fields := o |}.

Definition of_Serializable (s : Serializable) : object :=
  instance_of (cls s) (own s).

(** What a class declares: its [validate] (the base method returns
    [true]), and the methods it overrides, if any.  An overriding [toRaw]
    or [toJSON] is taken to read its instance only; the argument of
    [toRaw] may be omitted. *)
Record class_def := {
  validate_method : object -> result bool;
  toRaw_override : option (option (list string) -> object -> result props);
  fromRaw_override : option (value -> object -> result unit * object);
  toJSON_override : option (object -> result string);
  fromJSON_override : option (string -> object -> result unit * object)
}.

(** Where the lookup of a method name ends: at a property holding data,
    at the method of a class, or nowhere. *)
Inductive found :=
| Found_data
| Found_method (c : string)
| Not_found.

Definition lookup_method (o : object) (m : string) : found :=
  if has_own m (fields o) then Found_data
  else match proto o with
       | ClassProto c => Found_method c
       | ValueProto (VSer c fs) => if has_own m fs then Found_data else Found_method c
       | ValueProto (VObj fs) => if has_own m fs then Found_data else Not_found
       | ValueProto _ => Not_found
       | NullProto => Not_found
       end.

Definition not_a_function {A} (m : string) : result A :=
  Throw (TypeError (m ++ " is not a function")).

(** What [this[k] = v] meets when [k] is no own property: nothing or an
    inherited data property (an own property is created), the accessor
    [__proto__] of [Object.prototype] (its setter runs), or the accessor
    [type] of the class, which has no setter. *)
Inductive inherited_slot :=
| Creates_own
| Proto_setter
| No_setter.

Definition class_slot (k : string) : inherited_slot :=
  if String.eqb k "type" then No_setter
  else if String.eqb k "__proto__" then Proto_setter
  else Creates_own.

Definition inherited (p : prototype) (k : string) : inherited_slot :=
  match p with
  | NullProto => Creates_own
  | ClassProto _ => class_slot k
  | ValueProto (VSer _ fs) => if has_own k fs then Creates_own else class_slot k
  | ValueProto (VObj fs) =>
      if has_own k fs then Creates_own
      else if String.eqb k "__proto__" then Proto_setter else Creates_own
  | ValueProto _ => if String.eqb k "__proto__" then Proto_setter else Creates_own
  end.

(** The setter of [__proto__]: an object or [null] becomes the prototype,
    any other value is ignored. *)
Definition set_prototype (o : object) (v : value) : object :=
  match v with
  | VNull => {| proto := NullProto; fields := fields o |}
  | VObj _ | VArr _ | VSer _ _ => {| proto := ValueProto v; fields := fields o |}
  | _ => o
  end.

Definition put (o : object) (k : string) (v : value) : result object :=
  if has_own k (fields o)
  then Ok {| proto := proto o; fields := set_prop (fields o) k v |}
  else match inherited (proto o) k with
       | Creates_own => Ok {| proto := proto o; fields := set_prop (fields o) k v |}
       | Proto_setter => Ok (set_prototype o v)
       | No_setter => Throw (TypeError "Cannot set property type which has only a getter")
       end.

Fixpoint Object_assign (o : object) (entries : props) : result unit * object :=
  match entries with
  | [] => (Ok tt, o)
  | (k, v) :: rest =>
      match put o k v with
      | Ok o' => Object_assign o' rest
      | Throw e => (Throw e, o)
      end
  end.

Section Methods.

Variable classes : string -> class_def.
Variable P : Platform.

(** [this.validate()]. *)
Definition call_validate (this : object) : result bool :=
  match lookup_method this "validate" with
  | Found_method c => validate_method (classes c) this
  | _ => not_a_function "this.validate"
  end.

(** The body of [fromRaw]. *)
Definition fromRaw (raw : value) (this : object) : result unit * object :=
  match Object_assign this (own_entries raw) with
  | (Throw e, this') => (Throw e, this')
  | (Ok _, this') =>
      (try_catch
         (let* valid := call_validate this' in
          if negb valid then Throw (Err ENCODING_ERROR None) else Ok tt)
         (fun _ => Throw (Err ENCODING_ERROR None)),
       this')
  end.

(** [this.fromRaw(raw)]. *)
Definition call_fromRaw (raw : value) (this : object) : result unit * object :=
  match lookup_method this "fromRaw" with
  | Found_method c =>
      match fromRaw_override (classes c) with
      | Some method => method raw this
      | None => fromRaw raw this
      end
  | _ => (not_a_function "this.fromRaw", this)
  end.

(** [val.toRaw()] on a nested instance [val], where [base] is what the
    base method returns on it. *)
Definition dispatch_toRaw (val : value) (base : result props) : result props :=
  match val with
  | VSer c fs =>
      if has_own "toRaw" fs then not_a_function "val.toRaw"
      else match toRaw_override (classes c) with
           | Some method => method None (instance_of c fs)
           | None => base
           end
  | _ => base
  end.

(** The body of [toRaw] on the instance [this]; the loop stops at the
    first nested call that throws. *)
Fixpoint toRaw (exclude : list string) (this : value) {struct this} : result props :=
  match this with
  | VSer _ fields =>
      fold_left
        (fun acc '(prop, val) =>
           let* raw := acc in
           if is_private prop || includes exclude prop then Ok raw
           else
             match val with
             | VSer _ _ =>
                 let* r := dispatch_toRaw val (toRaw [] val) in
                 Ok (set_prop raw prop (VObj r))
             | VArr elems =>
                 let* l :=
                   fold_right
                     (fun each rest =>
                        let* x := match each with
                                  | VSer _ _ =>
                                      let* r := dispatch_toRaw each (toRaw [] each) in
                                      Ok (VObj r)
                                  | _ => Ok each
                                  end in
                        let* xs := rest in
                        Ok (x :: xs))
                     (Ok []) elems in
                 Ok (set_prop raw prop (VArr l))
             | _ => Ok (set_prop raw prop val)
             end)
        fields (Ok [])
  | _ => Ok []
  end.

(** [val.toRaw()], without argument. *)
Definition call_nested (val : value) : result props :=
  dispatch_toRaw val (toRaw [] val).

Definition convert_each (each : value) : result value :=
  match each with
  | VSer _ _ => let* r := call_nested each in Ok (VObj r)
  | _ => Ok each
  end.

Fixpoint convert_all (elems : list value) : result (list value) :=
  match elems with
  | [] => Ok []
  | each :: tl =>
      let* x := convert_each each in
      let* xs := convert_all tl in
      Ok (x :: xs)
  end.

(** What [toRaw] stores for a property holding [val], when the nested
    calls return. *)
Definition convert (val : value) : result value :=
  match val with
  | VSer _ _ => let* r := call_nested val in Ok (VObj r)
  | VArr elems => let* l := convert_all elems in Ok (VArr l)
  | _ => Ok val
  end.

(** [this.toRaw(exclude)], [exclude] omitted when [None]. *)
Definition call_toRaw (exclude : option (list string)) (this : object) : result props :=
  match lookup_method this "toRaw" with
  | Found_method c =>
      match toRaw_override (classes c) with
      | Some method => method exclude this
      | None => toRaw (match exclude with Some xs => xs | None => [] end)
                      (VSer c (fields this))
      end
  | _ => not_a_function "this.toRaw"
  end.



(** The body of [fromJSON]: the argument [JSON.parse(json)] is evaluated
    before the call of [this.fromRaw]. *)
Definition fromJSON (json : string) (this : object) : result unit * object :=
  match JSON_parse P json with
  | Ok raw => call_fromRaw raw this
  | Throw e => (Throw e, this)
  end.




(** [this.clone()], that is [new this.constructor().fromRaw(this.toRaw())].
    [construct c] is the list of own properties of [new C()] for the class
    [C] named [c].  The member [constructor] is looked up like a method; a
    value that is no class cannot be constructed.  The argument
    [this.toRaw()] is evaluated before the call of [fromRaw] on the new
    instance, which returns that instance. *)
Definition clone (construct : string -> props) (this : object) : result object :=
  match lookup_method this "constructor" with
  | Found_method c =>
      let* raw := call_toRaw None this in
      match call_fromRaw (VObj raw) (instance_of c (construct c)) with
      | (Ok _, copy) => Ok copy
      | (Throw e, _) => Throw e
      end
  | _ => Throw (TypeError "this.constructor is not a constructor")
  end.

End Methods.

(** The class table of a program whose classes override [validate] only. *)
Definition plain_classes (validate_of : string -> props -> result bool)
           (c : string) : class_def :=
  {| validate_method := fun this => validate_of c (fields this);
     toRaw_override := None;
     fromRaw_override := None;
     toJSON_override := None;
     fromJSON_override := None |}.

End Runtime.

(** ** Auxiliary definitions for the statements about the runtime *)

(** One turn of the loop of [Runtime.toRaw]. *)
Definition toRaw_turn (classes : string -> Runtime.class_def) (exclude : list string)
           (acc : result props) (entry : string * value) : result props :=
  let* raw := acc in
  if is_private (fst entry) || includes exclude (fst entry) then Ok raw
  else
    let* v := Runtime.convert classes (snd entry) in
    Ok (set_prop raw (fst entry) v).

(** The class tables of the examples: every class keeps the methods of the
    base class but [validate]; in [sealing_classes] the class [sealed]
    overrides [toRaw]. *)
Definition base_classes : string -> Runtime.class_def :=
  Runtime.plain_classes base_validate.

Definition example_classes : string -> Runtime.class_def :=
  Runtime.plain_classes example_validate.

Definition sealing_classes (c : string) : Runtime.class_def :=
  if String.eqb c "sealed"
  then {| Runtime.validate_method := fun _ => Ok true;
          Runtime.toRaw_override := Some (fun _ _ => Ok [("sealed", VBool true)]);
          Runtime.fromRaw_override := None;
          Runtime.toJSON_override := None;
          Runtime.fromJSON_override := None |}
  else base_classes c.

(** A vault whose nested entity has a data property named [toRaw]. *)
Definition shadowed_vault : value :=
  VSer "vault" [("name", VStr "work");
                ("owner", VSer "member" [("toRaw", VNum 1)])].

Definition sealed_vault : value :=
  VSer "vault" [("name", VStr "work");
                ("owner", VSer "sealed" [("name", VStr "ann")]);
                ("items", VArr [VSer "item" [("name", VStr "door")]; VNum 3])].

(** Pairwise distinct names. *)
Fixpoint distinct (l : list string) : bool :=
  match l with
  | [] => true
  | k :: tl => negb (existsb (String.eqb k) tl) && distinct tl
  end.

(** The values JSON text carries unchanged: [null], booleans, the integers
    every one of which is a number of the runtime (up to [2^53 - 1] in
    absolute value), strings, arrays of such values and mappings of such
    values with pairwise distinct keys.  [undefined] is not among them,
    nor is an instance. *)
Fixpoint json_ok (v : value) : bool :=
  match v with
  | VUndefined => false
  | VNull => true
  | VBool _ => true
  | VNum n => (Z.abs n <=? 9007199254740991)%Z
  | VStr _ => true
  | VArr elems => forallb json_ok elems
  | VObj fields => forallb (fun kv => json_ok (snd kv)) fields && distinct (keys fields)
  | VSer _ _ => false
  end.

(** The JSON text of such a value, without white space. *)
Fixpoint text (v : value) : string :=
  match v with
  | VNull => "null"
  | VBool true => "true"
  | VBool false => "false"
  | VNum n => Reference.number_to_string n
  | VStr s => Reference.quote s
  | VArr elems => "[" ++ Reference.concat_with "," (map text elems) ++ "]"
  | VObj fields =>
      "{" ++ Reference.concat_with ","
               (map (fun kv => Reference.quote (fst kv) ++ ":" ++ text (snd kv)) fields)
          ++ "}"
  | _ => ""
  end.

(** What may follow a value in JSON text without white space: nothing, a
    comma or a closing bracket. *)
Definition ends_value (rest : string) : bool :=
  match rest with
  | EmptyString => true
  | String c _ => Ascii.eqb c "," || Ascii.eqb c "]" || Ascii.eqb c "}"
  end.










(** An entity in good order for [toRaw]: no entity its public properties
    hold, as a value or as an element of an array, and none those entities
    hold in turn, has an own property named [toRaw]. *)
Fixpoint in_order (this : value) : bool :=
  match this with
  | VSer _ fields =>
      forallb
        (fun kv =>
           is_private (fst kv) ||
           match snd kv with
           | VSer _ fs => negb (has_own "toRaw" fs) && in_order (snd kv)
           | VArr elems =>
               forallb (fun each =>
                          match each with
                          | VSer _ fs => negb (has_own "toRaw" fs) && in_order each
                          | _ => true
                          end) elems
           | _ => true
           end) fields
  | _ => true
  end.

(** * Properties *)

(** ** The byte codecs *)

Lemma store_middle (pre post : list byte) (old b : byte) :
  store (pre ++ old :: post) (length pre) b = (pre ++ b :: post)%list.
Proof.
  induction pre as [|x pre IH]; simpl; [reflexivity|].
  now rewrite IH.
Qed.

Lemma hexToBytes_loop_fills (str : string) (fuel : nat) :
  forall (i : nat) (pre : list byte),
    length pre = i ->
    hexToBytes_loop str fuel i (pre ++ repeat x00 fuel)
    = (pre ++ map (pair_byte str) (seq i fuel))%list.
Proof.
  induction fuel as [|f IH]; intros i pre Hlen; simpl.
  - reflexivity.
  - assert (Hlt : (i <? length (pre ++ x00 :: repeat x00 f)) = true).
    { apply Nat.ltb_lt. rewrite length_app. simpl. lia. }
    rewrite Hlt. subst i. rewrite store_middle.
    change (pre ++ ?b :: repeat x00 f)%list with (pre ++ [b] ++ repeat x00 f)%list.
    rewrite app_assoc, IH by (rewrite length_app; simpl; lia).
    now rewrite <- app_assoc.
Qed.

Lemma hexToBytes_indices (str : string) :
  hexToBytes str = Ok (map (pair_byte str) (seq 0 (String.length str / 2))).
Proof.
  unfold hexToBytes, new_Uint8Array, try_catch. rewrite repeat_length.
  f_equal. exact (hexToBytes_loop_fills str (String.length str / 2) [] eq_refl).
Qed.

Lemma pair_byte_head (a b : ascii) (s : string) :
  pair_byte (String a (String b s)) 0 = ToUint8 (parseInt16 (String a (String b ""))).
Proof. unfold pair_byte, js_substring. cbn [String.length Nat.mul Nat.add Nat.min Nat.max Nat.sub String.substring]. now destruct s. Qed.

Lemma pair_byte_shift (a b : ascii) (s : string) (i : nat) :
  pair_byte (String a (String b s)) (S i) = pair_byte s i.
Proof.
  unfold pair_byte, js_substring. cbn [String.length].
  replace (S i * 2) with (S (S (i * 2))) by lia.
  replace (S (S (i * 2)) + 2) with (S (S (i * 2 + 2))) by lia.
  rewrite <- !Nat.succ_min_distr, <- !Nat.succ_max_distr.
  cbn [Nat.sub String.substring]. reflexivity.
Qed.

Lemma half_step (n : nat) : S (S n) / 2 = S (n / 2).
Proof.
  replace (S (S n)) with (n + 1 * 2) by lia.
  rewrite Nat.div_add by lia. lia.
Qed.

Lemma pairs_by_index (s : string) :
  map (pair_byte s) (seq 0 (String.length s / 2)) = decode_pairs s.
Proof.
  assert (H : forall n s, String.length s <= n ->
              map (pair_byte s) (seq 0 (String.length s / 2)) = decode_pairs s).
  { clear s. induction n as [|n IH]; intros s Hn.
    - destruct s; [reflexivity | simpl in Hn; lia].
    - destruct s as [|a [|b tl]]; try reflexivity.
      cbn [String.length] in *. rewrite half_step.
      cbn [seq map decode_pairs]. rewrite pair_byte_head. f_equal.
      rewrite <- seq_shift, map_map.
      rewrite (map_ext _ (pair_byte tl)) by (intro; apply pair_byte_shift).
      apply IH. lia. }
  apply (H (String.length s)). lia.
Qed.

Lemma hexToBytes_pairs (s : string) : hexToBytes s = Ok (decode_pairs s).
Proof. rewrite hexToBytes_indices. now rewrite pairs_by_index. Qed.

Lemma decode_pairs_length (s : string) :
  length (decode_pairs s) = String.length s / 2.
Proof. rewrite <- pairs_by_index. now rewrite length_map, length_seq. Qed.

Lemma parseInt16_hex_pair (a b : ascii) (h l : N) :
  hex_value a = Some h -> hex_value b = Some l ->
  ToUint8 (parseInt16 (String a (String b ""))) = Reference.byte_of_N (h * 16 + l).
Proof.
  intros Ha Hb.
  destruct a as [[] [] [] [] [] [] [] []]; try discriminate Ha;
    injection Ha as <-;
    destruct b as [[] [] [] [] [] [] [] []]; try discriminate Hb;
    injection Hb as <-; reflexivity.
Qed.

Lemma decode_pairs_all_hex (s : string) :
  all_hex s = true -> Nat.even (String.length s) = true ->
  decode_pairs s = bytes_of_hex_pairs s.
Proof.
  assert (H : forall n s, String.length s <= n -> all_hex s = true ->
              Nat.even (String.length s) = true ->
              decode_pairs s = bytes_of_hex_pairs s).
  { clear s. induction n as [|n IH]; intros s Hn Hhex Hev.
    - destruct s; [reflexivity | simpl in Hn; lia].
    - destruct s as [|a [|b tl]]; try reflexivity.
      cbn [all_hex] in Hhex. apply andb_prop in Hhex as [Ha Hhex].
      apply andb_prop in Hhex as [Hb Hhex].
      unfold is_hex in Ha, Hb.
      destruct (hex_value a) as [h|] eqn:Eh; [|discriminate].
      destruct (hex_value b) as [l|] eqn:El; [|discriminate].
      cbn [decode_pairs bytes_of_hex_pairs]. rewrite Eh, El.
      rewrite (parseInt16_hex_pair a b Eh El). f_equal.
      apply IH; [cbn [String.length] in Hn; lia | assumption | exact Hev]. }
  apply (H (String.length s)). lia.
Qed.

Lemma two_lower_hex_decodes (b : byte) :
  ToUint8 (parseInt16 (two_lower_hex b)) = b.
Proof. destruct b; reflexivity. Qed.

Lemma toString16_padded (b : byte) :
  (let s := toString16 (Byte.to_N b) in
   if String.length s =? 1 then "0" ++ s else s) = two_lower_hex b.
Proof. destruct b; reflexivity. Qed.

Lemma bytesToHex_fold (bytes : list byte) (acc : string) :
  fold_left
    (fun str b =>
       let s := toString16 (Byte.to_N b) in
       str ++ (if String.length s =? 1 then "0" ++ s else s))
    bytes acc
  = acc ++ hex_of_bytes bytes.
Proof.
  revert acc. induction bytes as [|b tl IH]; intro acc; cbn [fold_left hex_of_bytes].
  - clear. induction acc as [|c acc IH]; simpl; [reflexivity | now rewrite <- IH].
  - rewrite IH. pose proof (toString16_padded b) as Hb. cbv zeta in Hb.
    rewrite Hb. clear. induction acc as [|c acc IH]; simpl; [reflexivity | now rewrite IH].
Qed.

Lemma bytesToHex_hex_of_bytes (bytes : list byte) :
  bytesToHex bytes = Ok (hex_of_bytes bytes).
Proof. unfold bytesToHex, try_catch. now rewrite bytesToHex_fold. Qed.

Lemma decode_pairs_hex_of_bytes (bytes : list byte) :
  decode_pairs (hex_of_bytes bytes) = bytes.
Proof.
  induction bytes as [|b tl IH]; [reflexivity|].
  cbn [hex_of_bytes]. unfold two_lower_hex at 1. cbn [String.append decode_pairs].
  fold (two_lower_hex b). now rewrite two_lower_hex_decodes, IH.
Qed.

Lemma hex_of_bytes_length (bytes : list byte) :
  String.length (hex_of_bytes bytes) = 2 * length bytes.
Proof.
  induction bytes as [|b tl IH]; [reflexivity|].
  cbn [hex_of_bytes]. unfold two_lower_hex. cbn [String.append String.length length].
  rewrite IH. lia.
Qed.

Lemma hex_of_bytes_lowercase (bytes : list byte) :
  all_lower_hex (hex_of_bytes bytes) = true.
Proof.
  induction bytes as [|b tl IH]; [reflexivity|].
  cbn [hex_of_bytes]. unfold two_lower_hex. cbn [String.append all_lower_hex].
  rewrite IH. destruct b; reflexivity.
Qed.

(** C3, as the code has it.  [hexToBytes] never throws: for every string it
    returns [length / 2] bytes (rounded down), the byte at index [i] being
    what [parseInt] reads from the [i]-th pair of characters, stored as an
    unsigned byte ([NaN] as 0); on an even-length string of hexadecimal
    characters each pair maps to the byte it denotes. *)
Theorem hexToBytes_never_throws (s : string) :
  (exists bytes,
      hexToBytes s = Ok bytes /\
      length bytes = String.length s / 2 /\
      forall i, i < length bytes -> nth i bytes x00 = pair_byte s i) /\
  (Nat.even (String.length s) = true -> all_hex s = true ->
   hexToBytes s = Ok (bytes_of_hex_pairs s)).
Proof.
  split.
  - exists (map (pair_byte s) (seq 0 (String.length s / 2))).
    split; [apply hexToBytes_indices|].
    rewrite length_map, length_seq. split; [reflexivity|].
    intros i Hi.
    rewrite (nth_indep _ x00 (pair_byte s 0)) by (rewrite length_map, length_seq; exact Hi).
    rewrite map_nth, seq_nth by exact Hi. reflexivity.
  - intros Hev Hhex. rewrite hexToBytes_pairs. f_equal.
    now apply decode_pairs_all_hex.
Qed.

Lemma hexToBytes_never_throws_witness :
  hexToBytes "0aFf10" = Ok [x0a; xff; x10].
Proof.
  exact (proj2 (hexToBytes_never_throws "0aFf10") eq_refl eq_refl).
Defined.

(** C3 fails as stated: an odd-length string and a string of characters
    that are no hexadecimal digits are both decoded without an error. *)
Lemma hexToBytes_accepts_odd_and_non_hex :
  Nat.odd (String.length "abc") = true /\
  hexToBytes "abc" = Ok [xab] /\
  all_hex "zz" = false /\
  hexToBytes "zz" = Ok [x00] /\
  ~ is_encoding_error (hexToBytes "abc") /\
  ~ is_encoding_error (hexToBytes "zz").
Proof.
  repeat split; try reflexivity; intros [m H]; discriminate H.
Qed.

(** C6.  For every byte sequence [b], [bytesToHex b] is two lowercase,
    zero-padded hexadecimal characters per byte, and [hexToBytes] maps it
    back to [b]. *)
Theorem hexToBytes_bytesToHex (b : list byte) :
  exists h,
    bytesToHex b = Ok h /\
    h = hex_of_bytes b /\
    String.length h = 2 * length b /\
    all_lower_hex h = true /\
    hexToBytes h = Ok b.
Proof.
  exists (hex_of_bytes b).
  split; [apply bytesToHex_hex_of_bytes|].
  split; [reflexivity|].
  split; [apply hex_of_bytes_length|].
  split; [apply hex_of_bytes_lowercase|].
  rewrite hexToBytes_pairs. now rewrite decode_pairs_hex_of_bytes.
Qed.

Lemma length_sum (arrs : list (list byte)) (n : nat) :
  fold_left (fun len arr => len + length arr) arrs n = n + length (concat arrs).
Proof.
  revert n. induction arrs as [|arr rest IH]; intro n; cbn [fold_left concat].
  - simpl. lia.
  - rewrite IH, length_app. lia.
Qed.

Lemma skipn_repeat (A : Type) (x : A) (n m : nat) :
  skipn n (repeat x (n + m)) = repeat x m.
Proof. induction n as [|n IH]; [reflexivity | exact IH]. Qed.

Lemma typed_set_next (done arr : list byte) (k : nat) :
  typed_set (done ++ repeat x00 (length arr + k)) arr (length done)
  = Ok ((done ++ arr) ++ repeat x00 k)%list.
Proof.
  unfold typed_set.
  assert (Hfit : (length arr + length done
                  <=? length (done ++ repeat x00 (length arr + k))) = true).
  { apply Nat.leb_le. rewrite length_app, repeat_length. lia. }
  rewrite Hfit. f_equal.
  rewrite firstn_app, Nat.sub_diag, firstn_all, firstn_O, app_nil_r.
  rewrite skipn_app, skipn_all2 by lia.
  replace (length done + length arr - length done) with (length arr) by lia.
  rewrite skipn_repeat. now rewrite <- app_assoc.
Qed.

Lemma concatBytes_loop_appends (arrs : list (list byte)) :
  forall done : list byte,
    concatBytes_loop arrs (done ++ repeat x00 (length (concat arrs))) (length done)
    = Ok (done ++ concat arrs)%list.
Proof.
  induction arrs as [|arr rest IH]; intro done; cbn [concatBytes_loop concat].
  - reflexivity.
  - rewrite length_app, typed_set_next. cbn [bind].
    replace (length done + length arr) with (length (done ++ arr)%list)
      by apply length_app.
    rewrite IH. now rewrite <- app_assoc.
Qed.

Lemma concatBytes_is_concat (arrs : list (list byte)) :
  concatBytes arrs = Ok (concat arrs).
Proof.
  unfold concatBytes, new_Uint8Array. rewrite length_sum.
  exact (concatBytes_loop_appends arrs []).
Qed.

(** C8.  [concatBytes] returns the concatenation of its arguments in
    argument order; its length is the sum of their lengths; an empty
    argument contributes nothing; without arguments the result is empty. *)
Theorem concatBytes_concatenates :
  (forall arrs : list (list byte),
      concatBytes arrs = Ok (concat arrs) /\
      length (concat arrs) = list_sum (map (@length byte) arrs)) /\
  (forall xs ys : list (list byte),
      concatBytes (xs ++ [] :: ys) = concatBytes (xs ++ ys)) /\
  concatBytes [] = Ok [] /\
  concatBytes [[x01; x02]; [x03]; [x04; x05]] = Ok [x01; x02; x03; x04; x05].
Proof.
  split; [|split; [|split; reflexivity]].
  - intro arrs. split; [apply concatBytes_is_concat|].
    induction arrs as [|arr rest IH]; [reflexivity|].
    cbn [concat map list_sum fold_right]. rewrite length_app.
    unfold list_sum in IH. now rewrite IH.
  - intros xs ys. rewrite !concatBytes_is_concat, !concat_app. reflexivity.
Qed.

(** ** Objects *)

Lemma get_set_prop_same (o : props) (k : string) (v : value) :
  get k (set_prop o k v) = Some v.
Proof.
  induction o as [|[k' v'] tl IH]; cbn [set_prop get].
  - now rewrite String.eqb_refl.
  - destruct (String.eqb k k') eqn:E; cbn [get]; rewrite E; [reflexivity | exact IH].
Qed.

Lemma get_set_prop_other (o : props) (k k' : string) (v : value) :
  k' <> k -> get k' (set_prop o k v) = get k' o.
Proof.
  intro Hne. induction o as [|[k0 v0] tl IH]; cbn [set_prop get].
  - apply String.eqb_neq in Hne. now rewrite Hne.
  - destruct (String.eqb k k0) eqn:E; cbn [get].
    + apply String.eqb_eq in E. subst k0.
      apply String.eqb_neq in Hne. now rewrite Hne.
    + now rewrite IH.
Qed.

Lemma keys_set_prop (o : props) (k : string) (v : value) (p : string) :
  In p (keys (set_prop o k v)) <-> p = k \/ In p (keys o).
Proof.
  induction o as [|[k' v'] tl IH]; cbn [set_prop keys map fst In].
  - intuition.
  - destruct (String.eqb k k') eqn:E; cbn [keys map fst In].
    + apply String.eqb_eq in E. subst k'. intuition.
    + unfold keys in IH. rewrite IH. intuition.
Qed.

Lemma NoDup_set_prop (o : props) (k : string) (v : value) :
  NoDup (keys o) -> NoDup (keys (set_prop o k v)).
Proof.
  induction o as [|[k' v'] tl IH]; cbn [set_prop keys map fst]; intro Hnd.
  - constructor; [intros [] | constructor].
  - inversion Hnd as [|? ? Hnotin Htl]; subst.
    destruct (String.eqb k k') eqn:E; cbn [keys map fst].
    + now constructor.
    + constructor; [|now apply IH].
      intro Hin. apply (keys_set_prop tl k v k') in Hin as [->|Hin].
      * now rewrite String.eqb_refl in E.
      * now apply Hnotin.
Qed.

Lemma get_None_iff (o : props) (k : string) :
  get k o = None <-> ~ In k (keys o).
Proof.
  induction o as [|[k' v'] tl IH]; cbn [get keys map fst In].
  - intuition.
  - destruct (String.eqb k k') eqn:E.
    + apply String.eqb_eq in E. subst k'. split; [discriminate | intuition].
    + apply String.eqb_neq in E. unfold keys in IH. rewrite IH.
      intuition congruence.
Qed.

Lemma includes_false_iff (exclude : list string) (prop : string) :
  includes exclude prop = false <-> ~ In prop exclude.
Proof.
  unfold includes. split.
  - intros H Hin.
    assert (Ht : existsb (String.eqb prop) exclude = true).
    { apply existsb_exists. exists prop. split; [exact Hin | apply String.eqb_refl]. }
    congruence.
  - intro Hnotin. destruct (existsb (String.eqb prop) exclude) eqn:E; [|reflexivity].
    apply existsb_exists in E as [x [Hin Heq]].
    apply String.eqb_eq in Heq. subst x. contradiction.
Qed.

(** ** [toRaw] *)

Lemma toRaw_unfold (exclude : list string) (c : string) (fields : props) :
  toRaw exclude (VSer c fields) = fold_left (toRaw_step exclude) fields [].
Proof.
  cbn [toRaw]. generalize (@nil (string * value)) as acc.
  induction fields as [|[prop val] tl IH]; intro acc; cbn [fold_left]; [reflexivity|].
  rewrite IH. f_equal. unfold toRaw_step. cbn [fst snd].
  destruct (is_private prop || includes exclude prop); [reflexivity|].
  destruct val; reflexivity.
Qed.

Lemma toRaw_fold_keys (exclude : list string) (fields acc : props) (p : string) :
  In p (keys (fold_left (toRaw_step exclude) fields acc)) <->
  In p (keys acc) \/
  (In p (keys fields) /\ is_private p = false /\ includes exclude p = false).
Proof.
  revert acc. induction fields as [|[prop val] tl IH]; intro acc; cbn [fold_left].
  - cbn [keys map In]. intuition.
  - rewrite IH. unfold toRaw_step. cbn [fst snd keys map In].
    destruct (is_private prop || includes exclude prop) eqn:E.
    + split; [intuition|]. intros [H|[[->|H] [Hp Hx]]]; [now left| |right; auto].
      rewrite Hp, Hx in E. discriminate E.
    + apply orb_false_elim in E as [Ep Ex]. rewrite keys_set_prop.
      split.
      * intros [[->|H]|H]; [right; auto | now left | right; intuition].
      * intros [H|[[->|H] H']]; [left; now right | left; now left | right; auto].
Qed.

Lemma toRaw_fold_NoDup (exclude : list string) (fields acc : props) :
  NoDup (keys acc) -> NoDup (keys (fold_left (toRaw_step exclude) fields acc)).
Proof.
  revert acc. induction fields as [|entry tl IH]; intros acc Hnd; cbn [fold_left].
  - exact Hnd.
  - apply IH. unfold toRaw_step.
    destruct (is_private (fst entry) || includes exclude (fst entry));
      [exact Hnd | now apply NoDup_set_prop].
Qed.

Lemma toRaw_fold_get (exclude : list string) (fields : props) (p : string) :
  forall acc : props,
    NoDup (keys fields) ->
    is_private p = false -> includes exclude p = false ->
    get p (fold_left (toRaw_step exclude) fields acc)
    = match get p fields with
      | Some val => Some (raw_of val)
      | None => get p acc
      end.
Proof.
  intros acc Hnd Hp Hx. revert acc.
  induction fields as [|[prop val] tl IH]; intro acc; cbn [fold_left get]; [reflexivity|].
  inversion Hnd as [|? ? Hnotin Htl]; subst.
  rewrite (IH Htl). unfold toRaw_step. cbn [fst snd].
  destruct (String.eqb p prop) eqn:E.
  - apply String.eqb_eq in E. subst prop. rewrite Hp, Hx. cbn [orb].
    apply get_None_iff in Hnotin. rewrite Hnotin. apply get_set_prop_same.
  - destruct (get p tl); [reflexivity|].
    destruct (is_private prop || includes exclude prop); [reflexivity|].
    apply get_set_prop_other. now apply String.eqb_neq.
Qed.

Lemma toRaw_keys (exclude : list string) (this : Serializable) (p : string) :
  In p (keys (toRaw exclude (instance this))) <->
  In p (keys (own this)) /\ is_private p = false /\ ~ In p exclude.
Proof.
  unfold instance. rewrite toRaw_unfold, toRaw_fold_keys, includes_false_iff.
  cbn [keys map In]. intuition.
Qed.

Lemma toRaw_get (exclude : list string) (this : Serializable) (p : string) (val : value) :
  NoDup (keys (own this)) ->
  is_private p = false -> ~ In p exclude ->
  get p (own this) = Some val ->
  get p (toRaw exclude (instance this)) = Some (raw_of val).
Proof.
  intros Hnd Hp Hx Hget. unfold instance.
  rewrite toRaw_unfold, toRaw_fold_get by (auto; now apply includes_false_iff).
  now rewrite Hget.
Qed.

Lemma toRaw_NoDup (exclude : list string) (this : value) :
  NoDup (keys (toRaw exclude this)).
Proof.
  destruct this; try constructor.
  rewrite toRaw_unfold. apply toRaw_fold_NoDup. constructor.
Qed.

(** ** [fromRaw] *)

Lemma put_Ok (o o' : props) (k : string) (v : value) :
  put o k v = Ok o' -> o' = set_prop o k v.
Proof.
  unfold put. destruct (has_own k o); [congruence|].
  destruct (String.eqb k "type"); [discriminate | congruence].
Qed.

Lemma Object_assign_result (entries : props) :
  forall (o o' : props) (r : result unit),
    Object_assign o entries = (r, o') ->
    r = Ok tt \/ exists m, r = Throw (TypeError m).
Proof.
  induction entries as [|[k v] rest IH]; intros o o' r H; cbn [Object_assign] in H.
  - left. congruence.
  - destruct (put o k v) as [o1|e] eqn:E; [exact (IH _ _ _ H)|].
    right. unfold put in E. destruct (has_own k o); [discriminate|].
    destruct (String.eqb k "type"); [|discriminate].
    injection E as <-. injection H as <- _. eauto.
Qed.

Lemma Object_assign_get (entries : props) :
  forall (o o' : props),
    Object_assign o entries = (Ok tt, o') ->
    NoDup (keys entries) ->
    forall k,
      get k o' = match get k entries with
                 | Some v => Some v
                 | None => get k o
                 end.
Proof.
  induction entries as [|[k0 v0] rest IH]; intros o o' H Hnd k;
    cbn [Object_assign] in H; cbn [get].
  - congruence.
  - destruct (put o k0 v0) as [o1|e] eqn:E; [|discriminate H].
    apply put_Ok in E. subst o1.
    inversion Hnd as [|? ? Hnotin Hrest]; subst.
    rewrite (IH _ _ H Hrest k).
    destruct (String.eqb k k0) eqn:Ek.
    + apply String.eqb_eq in Ek. subst k0.
      apply get_None_iff in Hnotin. rewrite Hnotin. apply get_set_prop_same.
    + destruct (get k rest); [reflexivity|].
      apply get_set_prop_other. now apply String.eqb_neq.
Qed.

Lemma Object_assign_type (entries : props) :
  forall (o : props) (v : value),
    get "type" entries = Some v ->
    has_own "type" o = false ->
    exists m o', Object_assign o entries = (Throw (TypeError m), o').
Proof.
  induction entries as [|[k0 v0] rest IH]; intros o v Hget Hown;
    cbn [get] in Hget; [discriminate|]. cbn [Object_assign].
  destruct (String.eqb "type" k0) eqn:E.
  - apply String.eqb_eq in E. subst k0. unfold put. rewrite Hown.
    cbn [String.eqb Ascii.eqb Bool.eqb andb]. eauto.
  - assert (Ek : String.eqb k0 "type" = false)
      by (rewrite String.eqb_sym; exact E).
    assert (Hput : put o k0 v0 = Ok (set_prop o k0 v0)).
    { unfold put. rewrite Ek. now destruct (has_own k0 o). }
    rewrite Hput. apply (IH _ v Hget).
    unfold has_own in *. rewrite get_set_prop_other; [exact Hown|].
    apply String.eqb_neq. exact E.
Qed.

(** The gate of [fromRaw]: once the assignment has completed, the call
    returns exactly when [validate()] returns [true], and fails with the
    encoding error otherwise. *)
Lemma fromRaw_gate (validate_of : string -> props -> result bool)
      (raw : value) (this : Serializable) (o : props) :
  Object_assign (own this) (own_entries raw) = (Ok tt, o) ->
  let this' := {| cls := cls this; own := o |} in
  (validate validate_of this' = Ok true /\
   fromRaw validate_of raw this = (Ok tt, this')) \/
  (validate validate_of this' <> Ok true /\
   fromRaw validate_of raw this = (Throw (Err ENCODING_ERROR None), this')).
Proof.
  intros Hassign this'. unfold fromRaw. rewrite Hassign. fold this'.
  destruct (validate validate_of this') as [[|]|e]; cbn.
  - left. now split.
  - right. split; [discriminate | reflexivity].
  - right. split; [discriminate | reflexivity].
Qed.

(** Every way [fromRaw] can end. *)
Lemma fromRaw_outcomes (validate_of : string -> props -> result bool)
      (raw : value) (this : Serializable) :
  let '(r, this') := fromRaw validate_of raw this in
  (r = Ok tt /\ validate validate_of this' = Ok true) \/
  r = Throw (Err ENCODING_ERROR None) \/
  (exists m, r = Throw (TypeError m)).
Proof.
  unfold fromRaw.
  destruct (Object_assign (own this) (own_entries raw)) as [r o] eqn:Hassign.
  destruct (Object_assign_result _ _ Hassign) as [->|[m ->]].
  - destruct (validate validate_of {| cls := cls this; own := o |})
      as [[|]|e] eqn:Hv; cbn; rewrite ?Hv; auto.
  - right. right. eauto.
Qed.



(** ** [fromJSON] *)

(** C4, evaluated on the code.  [fromJSON] calls [JSON.parse] itself, not
    [unmarshal]: what [JSON.parse] throws on malformed text reaches the
    caller as it is, where [fromRaw(unmarshal(text))] fails with the
    encoding error; on text that parses the two agree. *)
Theorem fromJSON_leaks_parse_error
  (validate_of : string -> props -> result bool) (P : Platform)
  (this : Serializable) (text : string) (e : exn) :
  JSON_parse P text = Throw e ->
  fromJSON validate_of P text this = (Throw e, this) /\
  spec_fromJSON validate_of P text this
  = (Throw (Err ENCODING_ERROR (Some (exn_toString e))), this).
Proof.
  intro Hparse. unfold fromJSON, spec_fromJSON, unmarshal.
  rewrite Hparse. split; reflexivity.
Qed.

Lemma fromJSON_leaks_parse_error_witness :
  fromJSON base_validate Reference.platform "{" (fresh "serializable")
  = (Throw (SyntaxError "Unexpected token in JSON"), fresh "serializable") /\
  spec_fromJSON base_validate Reference.platform "{" (fresh "serializable")
  = (Throw (Err ENCODING_ERROR (Some "SyntaxError: Unexpected token in JSON")),
     fresh "serializable").
Proof.
  exact (fromJSON_leaks_parse_error base_validate Reference.platform
           (fresh "serializable") "{" eq_refl).
Defined.

Lemma fromJSON_agrees_on_parsed_text
  (validate_of : string -> props -> result bool) (P : Platform)
  (this : Serializable) (text : string) (raw : value) :
  JSON_parse P text = Ok raw ->
  fromJSON validate_of P text this = fromRaw validate_of raw this /\
  spec_fromJSON validate_of P text this = fromRaw validate_of raw this.
Proof.
  intro Hparse. unfold fromJSON, spec_fromJSON, unmarshal.
  rewrite Hparse. split; reflexivity.
Qed.

Lemma raw_of_without_entity (val : value) :
  holds_entity val = false -> raw_of val = val.
Proof.
  destruct val as [| | | | |elems| |]; cbn [holds_entity raw_of]; try reflexivity;
    [|discriminate].
  intro H. f_equal. induction elems as [|each tl IH]; [reflexivity|].
  cbn [existsb] in H. apply orb_false_elim in H as [Heach Htl].
  cbn [map]. rewrite (IH Htl). f_equal. now destruct each.
Qed.

(** * Further properties of the module *)

(** ** [equalBytes], [concatBytes], the hexadecimal codec *)

Lemma equalBytes_loop_eq (a : list byte) :
  forall b, length a = length b -> (equalBytes_loop a b = true <-> a = b).
Proof.
  induction a as [|x a IH]; intros [|y b] Hlen; cbn [equalBytes_loop];
    try discriminate Hlen; [tauto|].
  injection Hlen as Hlen. destruct (Byte.eqb x y) eqn:E.
  - apply Byte.byte_dec_bl in E. subst y. rewrite (IH b Hlen).
    split; [now intros -> | now intros [= ->]].
  - apply Byte.eqb_false in E. split; [discriminate | now intros [= ? ?]].
Qed.

(** X1.  [equalBytes] decides equality of byte sequences: it returns
    [true] exactly when both have the same length and the same bytes, and
    [false], without an error, on a length mismatch. *)
Theorem equalBytes_decides_equality (a b : list byte) :
  (equalBytes a b = true <-> a = b) /\
  (length a <> length b -> equalBytes a b = false).
Proof.
  unfold equalBytes. destruct (length a =? length b) eqn:E; cbn [negb].
  - apply Nat.eqb_eq in E. split; [now apply equalBytes_loop_eq | contradiction].
  - apply Nat.eqb_neq in E. split; [|reflexivity].
    split; [discriminate | intros ->; contradiction].
Qed.

Lemma equalBytes_decides_equality_witness :
  equalBytes [x01; x02] [x01; x02; x03] = false.
Proof.
  apply (proj2 (equalBytes_decides_equality [x01; x02] [x01; x02; x03])).
  cbn. lia.
Defined.

Lemma string_append_assoc (a b c : string) : (a ++ b) ++ c = a ++ b ++ c.
Proof. induction a as [|x a IH]; cbn; [reflexivity | now rewrite IH]. Qed.

Lemma string_append_nil (a : string) : a ++ "" = a.
Proof. induction a as [|x a IH]; cbn; [reflexivity | now rewrite IH]. Qed.

Lemma hex_of_bytes_app (a b : list byte) :
  hex_of_bytes (a ++ b) = hex_of_bytes a ++ hex_of_bytes b.
Proof.
  induction a as [|x a IH]; cbn [app hex_of_bytes]; [reflexivity|].
  now rewrite IH, string_append_assoc.
Qed.

Lemma hex_of_bytes_concat (arrs : list (list byte)) :
  hex_of_bytes (concat arrs) = String.concat "" (map hex_of_bytes arrs).
Proof.
  induction arrs as [|arr rest IH]; [reflexivity|].
  cbn [concat map]. rewrite hex_of_bytes_app, IH.
  destruct rest as [|arr' rest]; cbn [map String.concat];
    [apply string_append_nil | reflexivity].
Qed.

(** X2.  The hexadecimal text of a concatenation is the concatenation of
    the hexadecimal texts: [bytesToHex(concatBytes(...arrs))] is the texts
    of the arguments, joined in order. *)
Theorem bytesToHex_concatBytes (arrs : list (list byte)) :
  exists res,
    concatBytes arrs = Ok res /\
    bytesToHex res = Ok (String.concat "" (map hex_of_bytes arrs)) /\
    forall arr, In arr arrs -> bytesToHex arr = Ok (hex_of_bytes arr).
Proof.
  exists (concat arrs). split; [apply concatBytes_is_concat|].
  split; [|intros; apply bytesToHex_hex_of_bytes].
  now rewrite bytesToHex_hex_of_bytes, hex_of_bytes_concat.
Qed.

Lemma decode_pairs_app (s1 s2 : string) :
  Nat.even (String.length s1) = true ->
  decode_pairs (s1 ++ s2) = (decode_pairs s1 ++ decode_pairs s2)%list.
Proof.
  assert (H : forall n s1, String.length s1 <= n ->
              Nat.even (String.length s1) = true ->
              decode_pairs (s1 ++ s2) = (decode_pairs s1 ++ decode_pairs s2)%list).
  { induction n as [|n IH]; intros s Hn Hev.
    - destruct s; [reflexivity | cbn in Hn; lia].
    - destruct s as [|a [|b tl]]; [reflexivity | discriminate Hev |].
      cbn [String.append decode_pairs app]. f_equal.
      apply IH; [cbn [String.length] in Hn; lia | exact Hev]. }
  apply (H (String.length s1)). lia.
Qed.

(** X3.  Decoding distributes over concatenation at a pair boundary: when
    the first text has even length, [hexToBytes(s1 + s2)] is
    [hexToBytes(s1)] followed by [hexToBytes(s2)]. *)
Theorem hexToBytes_append (s1 s2 : string) (b1 b2 : list byte) :
  Nat.even (String.length s1) = true ->
  hexToBytes s1 = Ok b1 -> hexToBytes s2 = Ok b2 ->
  hexToBytes (s1 ++ s2) = Ok (b1 ++ b2)%list.
Proof.
  intros Hev H1 H2. rewrite hexToBytes_pairs in *.
  injection H1 as <-. injection H2 as <-. now rewrite decode_pairs_app.
Qed.

Lemma hexToBytes_append_witness :
  hexToBytes ("0a1b" ++ "ff") = Ok [x0a; x1b; xff].
Proof.
  exact (@hexToBytes_append "0a1b" "ff" _ _ eq_refl eq_refl eq_refl).
Defined.

Lemma two_lower_hex_of_pair (a b : ascii) (h l : N) :
  hex_value a = Some h -> hex_value b = Some l ->
  two_lower_hex (Reference.byte_of_N (h * 16 + l))
  = String (lower_char a) (String (lower_char b) "").
Proof.
  intros Ha Hb.
  destruct a as [[] [] [] [] [] [] [] []]; try discriminate Ha;
    injection Ha as <-;
    destruct b as [[] [] [] [] [] [] [] []]; try discriminate Hb;
    injection Hb as <-; reflexivity.
Qed.

Lemma hex_of_bytes_of_hex_pairs (s : string) :
  all_hex s = true -> Nat.even (String.length s) = true ->
  hex_of_bytes (bytes_of_hex_pairs s) = toLowerCase s.
Proof.
  assert (H : forall n s, String.length s <= n -> all_hex s = true ->
              Nat.even (String.length s) = true ->
              hex_of_bytes (bytes_of_hex_pairs s) = toLowerCase s).
  { clear s. induction n as [|n IH]; intros s Hn Hhex Hev.
    - destruct s; [reflexivity | cbn in Hn; lia].
    - destruct s as [|a [|b tl]]; [reflexivity | discriminate Hev |].
      cbn [all_hex] in Hhex. apply andb_prop in Hhex as [Ha Hhex].
      apply andb_prop in Hhex as [Hb Hhex].
      unfold is_hex in Ha, Hb.
      destruct (hex_value a) as [h|] eqn:Eh; [|discriminate].
      destruct (hex_value b) as [l|] eqn:El; [|discriminate].
      cbn [bytes_of_hex_pairs toLowerCase]. rewrite Eh, El.
      cbn [hex_of_bytes]. rewrite (two_lower_hex_of_pair a b Eh El).
      cbn [String.append]. do 2 f_equal.
      apply IH; [cbn [String.length] in Hn; lia | assumption | exact Hev]. }
  apply (H (String.length s)). lia.
Qed.

(** X4.  The round trip in the other direction normalises the letter
    case: for an even-length text of hexadecimal characters,
    [bytesToHex(hexToBytes(s))] is [s.toLowerCase()]. *)
Theorem bytesToHex_hexToBytes_lowercases (s : string) :
  Nat.even (String.length s) = true -> all_hex s = true ->
  exists bytes,
    hexToBytes s = Ok bytes /\ bytesToHex bytes = Ok (toLowerCase s).
Proof.
  intros Hev Hhex. exists (bytes_of_hex_pairs s).
  split; [rewrite hexToBytes_pairs; f_equal; now apply decode_pairs_all_hex|].
  rewrite bytesToHex_hex_of_bytes. f_equal.
  now apply hex_of_bytes_of_hex_pairs.
Qed.

Lemma bytesToHex_hexToBytes_lowercases_witness :
  exists bytes,
    hexToBytes "0AfF" = Ok bytes /\ bytesToHex bytes = Ok "0aff".
Proof.
  exact (bytesToHex_hexToBytes_lowercases "0AfF" eq_refl eq_refl).
Defined.

(** X6.  Concatenating in two steps is concatenating once: the result of
    [concatBytes(concatBytes(...xs), concatBytes(...ys))] is that of
    [concatBytes(...xs, ...ys)]. *)
Theorem concatBytes_nested (xs ys : list (list byte)) :
  exists r1 r2,
    concatBytes xs = Ok r1 /\ concatBytes ys = Ok r2 /\
    concatBytes [r1; r2] = concatBytes (xs ++ ys).
Proof.
  exists (concat xs), (concat ys).
  rewrite !concatBytes_is_concat, concat_app. cbn [concat].
  now rewrite app_nil_r.
Qed.

(** ** The base64 compositions and the error kind of the codecs *)

(** X7.  Whatever [base64ToHex] returns decodes, through [hexToBytes], to
    the bytes [base64ToBytes] gives for the same input; it has two
    lowercase hexadecimal characters per byte.  When [base64ToBytes] fails,
    [base64ToHex] fails with the same encoding error. *)
Theorem base64ToHex_decodes (B : Base64) (b64 : string) :
  (forall h, base64ToHex B b64 = Ok h ->
             hexToBytes h = base64ToBytes B b64 /\ all_lower_hex h = true) /\
  (forall e, base64ToBytes B b64 = Throw e -> base64ToHex B b64 = Throw e).
Proof.
  unfold base64ToHex. destruct (base64ToBytes B b64) as [bytes|e]; cbn [bind].
  - split; [|discriminate]. intros h Hh.
    rewrite bytesToHex_hex_of_bytes in Hh. injection Hh as <-.
    split; [|apply hex_of_bytes_lowercase].
    now rewrite hexToBytes_pairs, decode_pairs_hex_of_bytes.
  - split; [discriminate | now intros e' [= <-]].
Qed.

(** X8.  [hexToBase64] of the hexadecimal text of a byte sequence is the
    URL-safe base64 of that sequence: [hexToBase64(bytesToHex(b))] equals
    [bytesToBase64(b)]. *)
Theorem hexToBase64_bytesToHex (B : Base64) (b : list byte) :
  exists h, bytesToHex b = Ok h /\ hexToBase64 B h = bytesToBase64 B b true.
Proof.
  exists (hex_of_bytes b). split; [apply bytesToHex_hex_of_bytes|].
  unfold hexToBase64.
  now rewrite hexToBytes_pairs, decode_pairs_hex_of_bytes.
Qed.

Lemma try_catch_only_encoding_error (A : Type) (body : result A) :
  only_encoding_error (try_catch body rethrow_encoding).
Proof. destruct body; cbn; eauto. Qed.

Lemma bind_only_encoding_error (A C : Type) (m : result A) (k : A -> result C) :
  only_encoding_error m -> (forall a, only_encoding_error (k a)) ->
  only_encoding_error (bind m k).
Proof. destruct m; cbn; auto. Qed.

(** X9.  The codecs normalise their failures: whatever the platform and the
    base64 module throw, [marshal], [unmarshal], [bytesToBase64],
    [base64ToBytes], [stringToBytes], [bytesToString], [stringToBase64],
    [base64ToString], [hexToBytes], [bytesToHex], [base64ToHex] and
    [hexToBase64] return normally or throw the encoding error, nothing
    else. *)
Theorem codecs_throw_only_encoding_error
  (B : Base64) (P : Platform)
  (obj : props) (str : string) (bytes : list byte) (urlSafe : bool) :
  only_encoding_error (marshal P obj) /\
  only_encoding_error (unmarshal P str) /\
  only_encoding_error (bytesToBase64 B bytes urlSafe) /\
  only_encoding_error (base64ToBytes B str) /\
  only_encoding_error (stringToBytes P str) /\
  only_encoding_error (bytesToString P bytes) /\
  only_encoding_error (stringToBase64 B P str urlSafe) /\
  only_encoding_error (base64ToString B P str) /\
  only_encoding_error (hexToBytes str) /\
  only_encoding_error (bytesToHex bytes) /\
  only_encoding_error (base64ToHex B str) /\
  only_encoding_error (hexToBase64 B str).
Proof.
  repeat split;
    try apply try_catch_only_encoding_error;
    apply bind_only_encoding_error;
    intros; apply try_catch_only_encoding_error.
Qed.

(** ** More on [toRaw] *)

Lemma toRaw_step_private_or_set (exclude : list string) (raw : props)
      (k : string) (v : value) :
  toRaw_step exclude raw (k, v) = raw \/
  (is_private k = false /\ includes exclude k = false /\
   toRaw_step exclude raw (k, v) = set_prop raw k (raw_of v)).
Proof.
  unfold toRaw_step. cbn [fst snd].
  destruct (is_private k); [now left|].
  destruct (includes exclude k); [now left | right; auto].
Qed.



Lemma raw_of_each_not_instance (each : value) :
  is_instance (raw_of_each each) = false.
Proof. now destruct each. Qed.

Lemma holds_entity_raw_of (val : value) : holds_entity (raw_of val) = false.
Proof.
  destruct val as [| | | | |elems| |]; try reflexivity.
  cbn [raw_of holds_entity].
  induction elems as [|each tl IH]; [reflexivity|].
  cbn [map existsb]. rewrite IH.
  fold (is_instance (raw_of_each each)). now rewrite raw_of_each_not_instance.
Qed.

Lemma Forall_set_prop (Q : value -> Prop) (o : props) (k : string) (v : value) :
  Forall (fun kv => Q (snd kv)) o -> Q v ->
  Forall (fun kv => Q (snd kv)) (set_prop o k v).
Proof.
  intros Ho Hv. induction o as [|[k' v'] tl IH]; cbn [set_prop].
  - now constructor.
  - inversion Ho as [|? ? Hhd Htl]; subst.
    destruct (String.eqb k k'); constructor; auto.
Qed.

Lemma toRaw_fold_values (exclude : list string) (fields : props) :
  forall acc,
    Forall (fun kv => holds_entity (snd kv) = false) acc ->
    Forall (fun kv => holds_entity (snd kv) = false)
           (fold_left (toRaw_step exclude) fields acc).
Proof.
  induction fields as [|[k v] tl IH]; intros acc Hacc; cbn [fold_left];
    [exact Hacc|].
  apply IH. destruct (toRaw_step_private_or_set exclude acc k v)
    as [->|(_ & _ & ->)]; [exact Hacc|].
  apply (@Forall_set_prop (fun x => holds_entity x = false));
    [exact Hacc | apply holds_entity_raw_of].
Qed.

Lemma toRaw_values (exclude : list string) (this : value) :
  Forall (fun kv => holds_entity (snd kv) = false) (toRaw exclude this).
Proof.
  destruct this; try constructor.
  rewrite toRaw_unfold. apply toRaw_fold_values. constructor.
Qed.

Lemma get_In (o : props) (k : string) (v : value) :
  get k o = Some v -> In (k, v) o.
Proof.
  induction o as [|[k' v'] tl IH]; cbn [get]; [discriminate|].
  destruct (String.eqb k k') eqn:E.
  - apply String.eqb_eq in E. subst k'. intros [= ->]. now left.
  - intro H. right. now apply IH.
Qed.

(** X11.  No property of the mapping [toRaw] returns holds an entity, and
    no array among its properties has an entity as an element: each was
    replaced by its own [toRaw()]. *)
Theorem toRaw_values_hold_no_entity
  (this : Serializable) (xs : list string) (p : string) (v : value) :
  get p (toRaw xs (instance this)) = Some v ->
  is_instance v = false /\
  forall elems, v = VArr elems -> Forall (fun each => is_instance each = false) elems.
Proof.
  intro Hget. apply get_In in Hget.
  pose proof (toRaw_values xs (instance this)) as Hall.
  rewrite Forall_forall in Hall. specialize (Hall _ Hget). cbn [snd] in Hall.
  split; [now destruct v|].
  intros elems ->. cbn [holds_entity] in Hall.
  apply Forall_forall. intros each Hin.
  destruct (is_instance each) eqn:E; [|reflexivity].
  assert (Ht : existsb (fun each => match each with VSer _ _ => true | _ => false end)
                       elems = true)
    by (apply existsb_exists; exists each; split; [exact Hin | exact E]).
  congruence.
Qed.

Lemma toRaw_values_hold_no_entity_witness :
  is_instance (VArr [VObj [("name", VStr "door")]; VNum 3]) = false /\
  forall elems,
    VArr [VObj [("name", VStr "door")]; VNum 3] = VArr elems ->
    Forall (fun each => is_instance each = false) elems.
Proof.
  exact (@toRaw_values_hold_no_entity vault_example ["name"] "items" _ eq_refl).
Defined.

(** X12.  [toRaw] looks for entities one level deep only: a property
    value that is neither an entity nor an array with an entity among its
    elements is stored as it is, whatever it holds further inside (an
    entity inside a plain object or inside an inner array stays an
    entity). *)
Theorem toRaw_keeps_other_values
  (this : Serializable) (xs : list string) (p : string) (val : value) :
  NoDup (keys (own this)) ->
  is_private p = false -> ~ In p xs ->
  get p (own this) = Some val ->
  holds_entity val = false ->
  get p (toRaw xs (instance this)) = Some val.
Proof.
  intros Hnd Hp Hx Hget Hplain.
  rewrite (toRaw_get xs this p Hnd Hp Hx Hget).
  now rewrite raw_of_without_entity.
Qed.

Lemma toRaw_keeps_other_values_witness :
  get "meta" (toRaw [] (instance folder_example))
  = Some (VObj [("owner", VSer "member" [("_key", VNum 7)])]) /\
  get "grid" (toRaw [] (instance folder_example))
  = Some (VArr [VArr [VSer "item" [("name", VStr "door")]]]).
Proof.
  assert (Hnd : NoDup (keys (own folder_example))).
  { repeat constructor; cbn; intuition discriminate. }
  split.
  - exact (@toRaw_keeps_other_values folder_example [] "meta" _ Hnd eq_refl
             (fun H => H) eq_refl eq_refl).
  - exact (@toRaw_keeps_other_values folder_example [] "grid" _ Hnd eq_refl
             (fun H => H) eq_refl eq_refl).
Defined.

Lemma set_prop_fresh (o : props) (k : string) (v : value) :
  ~ In k (keys o) -> set_prop o k v = (o ++ [(k, v)])%list.
Proof.
  induction o as [|[k' v'] tl IH]; cbn [set_prop keys map fst In app]; intro H.
  - reflexivity.
  - destruct (String.eqb k k') eqn:E.
    + apply String.eqb_eq in E. subst k'. exfalso. apply H. now left.
    + rewrite IH; [reflexivity|]. intro Hin. apply H. now right.
Qed.

Lemma toRaw_fold_fresh (fields : props) :
  forall acc,
    NoDup (keys (acc ++ fields)) ->
    Forall (fun kv => is_private (fst kv) = false) fields ->
    Forall (fun kv => holds_entity (snd kv) = false) fields ->
    fold_left (toRaw_step []) fields acc = (acc ++ fields)%list.
Proof.
  induction fields as [|[k v] tl IH]; intros acc Hnd Hpub Hplain;
    cbn [fold_left]; [now rewrite app_nil_r|].
  inversion Hpub as [|? ? Hk Hpub']; subst.
  inversion Hplain as [|? ? Hv Hplain']; subst. cbn [fst snd] in *.
  unfold toRaw_step. cbn [fst snd includes existsb]. rewrite Hk. cbn [orb].
  rewrite (raw_of_without_entity v Hv).
  assert (Hfresh : ~ In k (keys acc)).
  { unfold keys in *. rewrite map_app in Hnd. cbn [map fst] in Hnd.
    apply NoDup_remove_2 in Hnd. intro Hin. apply Hnd.
    apply in_or_app. now left. }
  rewrite (@set_prop_fresh acc k v Hfresh).
  rewrite IH; [now rewrite <- app_assoc | | assumption | assumption].
  now rewrite <- app_assoc.
Qed.

Lemma toRaw_public_keys (xs : list string) (this : Serializable) :
  Forall (fun kv => is_private (fst kv) = false) (toRaw xs (instance this)).
Proof.
  apply Forall_forall. intros [k v] Hin. cbn [fst].
  assert (Hk : In k (keys (toRaw xs (instance this))))
    by (apply in_map_iff; exists (k, v); auto).
  apply toRaw_keys in Hk. tauto.
Qed.

(** X13.  [toRaw] is idempotent through an instance: an instance whose own
    properties are the mapping [toRaw(xs)] returned serializes, with
    [toRaw()], to that same mapping. *)
Theorem toRaw_of_raw_form (this : Serializable) (xs : list string) (c : string) :
  toRaw [] (VSer c (toRaw xs (instance this))) = toRaw xs (instance this).
Proof.
  rewrite (toRaw_unfold [] c).
  apply (@toRaw_fold_fresh (toRaw xs (instance this)) []).
  - apply toRaw_NoDup.
  - apply toRaw_public_keys.
  - apply toRaw_values.
Qed.

(** ** More on [fromRaw] *)

Lemma fromRaw_state (validate_of : string -> props -> result bool)
      (raw : value) (this : Serializable) :
  snd (fromRaw validate_of raw this)
  = {| cls := cls this;
       own := snd (Object_assign (own this) (own_entries raw)) |}.
Proof.
  unfold fromRaw.
  now destruct (Object_assign (own this) (own_entries raw)) as [[[]|e] o].
Qed.

Lemma Object_assign_invariants (entries : props) :
  forall (o o' : props) (r : result unit),
    Object_assign o entries = (r, o') ->
    (forall k, In k (keys o) -> In k (keys o')) /\
    (NoDup (keys o) -> NoDup (keys o')) /\
    (forall k, get k entries = None -> get k o' = get k o).
Proof.
  induction entries as [|[k0 v0] rest IH]; intros o o' r H;
    cbn [Object_assign] in H.
  - injection H as _ <-. auto.
  - destruct (put o k0 v0) as [o1|e] eqn:E.
    + apply put_Ok in E. subst o1.
      destruct (IH _ _ _ H) as (Hkeys & Hnd & Hget).
      split; [|split].
      * intros k Hk. apply Hkeys. apply keys_set_prop. now right.
      * intro Hn. apply Hnd. now apply NoDup_set_prop.
      * intros k Hk. cbn [get] in Hk.
        destruct (String.eqb k k0) eqn:Ek; [discriminate|].
        rewrite (Hget k Hk). apply get_set_prop_other.
        now apply String.eqb_neq.
    + injection H as _ <-. auto.
Qed.

Lemma has_own_set_prop (o : props) (k k' : string) (v : value) :
  has_own k' o = true -> has_own k' (set_prop o k v) = true.
Proof.
  unfold has_own. destruct (String.eqb k' k) eqn:E.
  - apply String.eqb_eq in E. subst k'. now rewrite get_set_prop_same.
  - apply String.eqb_neq in E. now rewrite get_set_prop_other.
Qed.

Lemma Object_assign_completes (entries : props) :
  forall o : props,
    get "type" entries = None \/ has_own "type" o = true ->
    exists o', Object_assign o entries = (Ok tt, o').
Proof.
  induction entries as [|[k0 v0] rest IH]; intros o H; cbn [Object_assign].
  - eauto.
  - assert (Hput : put o k0 v0 = Ok (set_prop o k0 v0)).
    { unfold put. destruct (has_own k0 o) eqn:Eo; [reflexivity|].
      destruct (String.eqb k0 "type") eqn:Ek; [|reflexivity].
      apply String.eqb_eq in Ek. subst k0. destruct H as [H|H].
      - cbn [get String.eqb Ascii.eqb Bool.eqb andb] in H. discriminate H.
      - congruence. }
    rewrite Hput. apply IH. destruct H as [H|H].
    + cbn [get] in H. destruct (String.eqb "type" k0); [discriminate | now left].
    + right. now apply has_own_set_prop.
Qed.

(** X15.  The gate holds when [type] is out of the way: if the raw value
    has no key [type], or the instance has an own property [type],
    [fromRaw] either returns with [validate()] true on the instance, or
    fails with the encoding error; no other error escapes. *)
Theorem fromRaw_gate_without_type_clash
  (validate_of : string -> props -> result bool)
  (raw : value) (this : Serializable) :
  get "type" (own_entries raw) = None \/ has_own "type" (own this) = true ->
  (fst (fromRaw validate_of raw this) = Ok tt /\
   validate validate_of (snd (fromRaw validate_of raw this)) = Ok true) \/
  fst (fromRaw validate_of raw this) = Throw (Err ENCODING_ERROR None).
Proof.
  intro H. destruct (Object_assign_completes _ _ H) as [o Hassign].
  destruct (fromRaw_gate validate_of raw this Hassign) as [[Hv ->]|[_ ->]];
    cbn [fst snd]; auto.
Qed.

Lemma fromRaw_gate_without_type_clash_witness :
  fst (fromRaw example_validate (VObj [("age", VNum 3)]) (fresh "named"))
  = Throw (Err ENCODING_ERROR None).
Proof.
  destruct (@fromRaw_gate_without_type_clash example_validate
              (VObj [("age", VNum 3)]) (fresh "named") (or_introl eq_refl))
    as [[H _]|H]; [discriminate H | exact H].
Defined.

Lemma set_prop_same_value (o : props) (k : string) (v : value) :
  get k o = Some v -> set_prop o k v = o.
Proof.
  induction o as [|[k' v'] tl IH]; cbn [get set_prop]; [discriminate|].
  destruct (String.eqb k k'); [now intros [= ->] | intro H; now rewrite IH].
Qed.

Lemma Object_assign_present (entries : props) (o : props) :
  (forall k v, In (k, v) entries -> get k o = Some v) ->
  Object_assign o entries = (Ok tt, o).
Proof.
  induction entries as [|[k0 v0] rest IH]; intro H; cbn [Object_assign];
    [reflexivity|].
  assert (Hk : get k0 o = Some v0) by (apply H; now left).
  unfold put, has_own. rewrite Hk, (set_prop_same_value _ _ Hk).
  apply IH. intros k v Hin. apply H. now right.
Qed.

Lemma In_get (o : props) (k : string) (v : value) :
  NoDup (keys o) -> In (k, v) o -> get k o = Some v.
Proof.
  induction o as [|[k' v'] tl IH]; cbn [keys map fst get In]; intros Hnd Hin;
    [contradiction|].
  inversion Hnd as [|? ? Hnotin Htl]; subst.
  destruct Hin as [[= -> ->]|Hin]; [now rewrite String.eqb_refl|].
  destruct (String.eqb k k') eqn:E; [|now apply IH].
  apply String.eqb_eq in E. subst k'. exfalso. apply Hnotin.
  apply in_map_iff. exists (k, v). auto.
Qed.

Lemma Object_assign_app (es1 es2 : props) :
  forall o,
    Object_assign o (es1 ++ es2)
    = match Object_assign o es1 with
      | (Ok _, o1) => Object_assign o1 es2
      | (Throw e, o1) => (Throw e, o1)
      end.
Proof.
  induction es1 as [|[k v] rest IH]; intro o; cbn [app Object_assign];
    [reflexivity|].
  destruct (put o k v) as [o1|e]; [apply IH | reflexivity].
Qed.

(** ** [clone] *)

Lemma clone_Ok (validate_of : string -> props -> result bool)
      (construct : string -> props) (this copy : Serializable) :
  clone validate_of construct this = Ok copy ->
  exists o,
    Object_assign (construct (cls this)) (toRaw [] (instance this)) = (Ok tt, o) /\
    copy = {| cls := cls this; own := o |} /\
    validate validate_of copy = Ok true.
Proof.
  unfold clone, fromRaw. cbn [own_entries cls own].
  destruct (Object_assign (construct (cls this)) (toRaw [] (instance this)))
    as [[[]|e] o]; [|discriminate].
  destruct (validate validate_of {| cls := cls this; own := o |}) as [[|]|e] eqn:Hv;
    cbn; try discriminate.
  intros [= <-]. eauto.
Qed.

(** X20.  A clone is a validated instance of the same class, and none of
    the private properties of the original reaches it: its private
    properties are those its constructor sets. *)
Theorem clone_is_validated_and_drops_private
  (validate_of : string -> props -> result bool)
  (construct : string -> props) (this copy : Serializable) :
  clone validate_of construct this = Ok copy ->
  cls copy = cls this /\
  validate validate_of copy = Ok true /\
  forall p, is_private p = true ->
            get p (own copy) = get p (construct (cls this)).
Proof.
  intro H. destruct (clone_Ok _ _ _ H) as (o & Hassign & -> & Hvalid).
  split; [reflexivity|]. split; [exact Hvalid|].
  intros p Hp. cbn [own].
  apply (proj2 (proj2 (Object_assign_invariants _ _ Hassign))).
  apply get_None_iff. rewrite toRaw_keys. intros (_ & Hpub & _). congruence.
Qed.

Lemma clone_is_validated_and_drops_private_witness :
  get "_session" (own account_example) = Some (VStr "s0") /\
  clone example_validate no_initialisers account_example = Ok profile_example /\
  get "_session" (own profile_example) = None.
Proof.
  split; [reflexivity|]. split; [reflexivity|].
  exact (proj2 (proj2 (@clone_is_validated_and_drops_private example_validate
                         no_initialisers account_example profile_example eq_refl))
           "_session" eq_refl).
Defined.

(** X21.  A clone is not a copy of nested entities as entities: each
    public property of the original is on the clone with the value
    [toRaw] gave it, a plain mapping in place of a nested entity. *)
Theorem clone_holds_raw_forms
  (validate_of : string -> props -> result bool)
  (construct : string -> props) (this copy : Serializable)
  (p : string) (val : value) :
  clone validate_of construct this = Ok copy ->
  NoDup (keys (own this)) ->
  is_private p = false ->
  get p (own this) = Some val ->
  get p (own copy) = Some (raw_of val) /\
  is_instance (raw_of val) = false.
Proof.
  intros H Hnd Hp Hget.
  destruct (clone_Ok _ _ _ H) as (o & Hassign & -> & _). cbn [own].
  split; [|now destruct val].
  rewrite (Object_assign_get _ _ Hassign (toRaw_NoDup [] (instance this)) p).
  now rewrite (toRaw_get [] this p Hnd Hp (fun F => F) Hget).
Qed.

Lemma clone_holds_raw_forms_witness :
  clone base_validate no_initialisers vault_example = Ok vault_copy /\
  get "owner" (own vault_copy) = Some (VObj [("name", VStr "ann")]).
Proof.
  split; [reflexivity|].
  refine (proj1 (@clone_holds_raw_forms base_validate no_initialisers
                   vault_example vault_copy "owner" _ eq_refl _ eq_refl eq_refl)).
  repeat constructor; cbn; intuition discriminate.
Defined.

Lemma Object_assign_fresh (entries : props) :
  forall acc,
    NoDup (keys (acc ++ entries)) ->
    get "type" entries = None ->
    Object_assign acc entries = (Ok tt, (acc ++ entries)%list).
Proof.
  induction entries as [|[k v] rest IH]; intros acc Hnd Htype;
    cbn [Object_assign]; [now rewrite app_nil_r|].
  assert (Hfresh : ~ In k (keys acc)).
  { unfold keys in *. rewrite map_app in Hnd. cbn [map fst] in Hnd.
    apply NoDup_remove_2 in Hnd. intro Hin. apply Hnd.
    apply in_or_app. now left. }
  cbn [get] in Htype.
  destruct (String.eqb "type" k) eqn:Ek; [discriminate|].
  unfold put, has_own. rewrite (proj2 (get_None_iff acc k) Hfresh).
  rewrite String.eqb_sym, Ek, (@set_prop_fresh acc k v Hfresh).
  rewrite IH; [now rewrite <- app_assoc | now rewrite <- app_assoc | exact Htype].
Qed.

(** X22.  The clone serializes like the original: for a class whose
    constructor sets no property, the own properties of the clone are
    exactly [this.toRaw()], and [toRaw()] of the clone is [toRaw()] of the
    original. *)
Theorem clone_serializes_alike
  (validate_of : string -> props -> result bool)
  (construct : string -> props) (this copy : Serializable) :
  construct (cls this) = [] ->
  clone validate_of construct this = Ok copy ->
  own copy = toRaw [] (instance this) /\
  toRaw [] (instance copy) = toRaw [] (instance this).
Proof.
  intros Hnew H. destruct (clone_Ok _ _ _ H) as (o & Hassign & -> & _).
  rewrite Hnew in Hassign. cbn [own].
  assert (Htype : get "type" (toRaw [] (instance this)) = None).
  { destruct (get "type" (toRaw [] (instance this))) as [v|] eqn:E; [|reflexivity].
    destruct (@Object_assign_type _ [] v E eq_refl) as (m & o' & Hthrow).
    rewrite Hthrow in Hassign. discriminate Hassign. }
  assert (Ho : o = toRaw [] (instance this)).
  { pose proof (@Object_assign_fresh (toRaw [] (instance this)) []
                  (toRaw_NoDup [] (instance this)) Htype) as Hfresh.
    rewrite Hassign in Hfresh. now apply (f_equal snd) in Hfresh. }
  rewrite Ho. split; [reflexivity|].
  apply toRaw_of_raw_form.
Qed.

Lemma clone_serializes_alike_witness :
  own vault_copy = toRaw [] (instance vault_example) /\
  toRaw [] (instance vault_copy) = toRaw [] (instance vault_example).
Proof.
  exact (@clone_serializes_alike base_validate no_initialisers
           vault_example vault_copy eq_refl eq_refl).
Defined.


(** ** Raw values that name [validate], and raw values that are no mappings *)

Lemma Object_assign_keys (entries : props) :
  forall o o',
    Object_assign o entries = (Ok tt, o') ->
    forall k, In k (keys entries) -> In k (keys o').
Proof.
  induction entries as [|[k0 v0] rest IH]; intros o o' H k Hin;
    cbn [Object_assign] in H; cbn [keys map fst In] in Hin; [contradiction|].
  destruct (put o k0 v0) as [o1|e] eqn:E; [|discriminate H].
  apply put_Ok in E. subst o1. destruct Hin as [<-|Hin].
  - apply (proj1 (Object_assign_invariants _ _ H)).
    apply keys_set_prop. now left.
  - exact (IH _ _ H k Hin).
Qed.

(** X25.  Data cannot stand in for the method: when the raw value has a
    key [validate] and the assignment completes, the property shadows the
    method on the instance and [fromRaw] fails with the encoding error,
    whatever the class's [validate] would return. *)
Theorem fromRaw_validate_key_fails
  (validate_of : string -> props -> result bool)
  (raw : value) (this : Serializable) :
  In "validate" (keys (own_entries raw)) ->
  get "type" (own_entries raw) = None \/ has_own "type" (own this) = true ->
  fst (fromRaw validate_of raw this) = Throw (Err ENCODING_ERROR None) /\
  has_own "validate" (own (snd (fromRaw validate_of raw this))) = true.
Proof.
  intros Hkey Htype.
  destruct (Object_assign_completes _ _ Htype) as [o Hassign].
  assert (Hown : has_own "validate" o = true).
  { unfold has_own. destruct (get "validate" o) eqn:E; [reflexivity|].
    apply get_None_iff in E. exfalso. apply E.
    exact (Object_assign_keys _ _ Hassign _ Hkey). }
  unfold fromRaw. rewrite Hassign. unfold validate. cbn [own fst snd].
  now rewrite Hown.
Qed.

Lemma fromRaw_validate_key_fails_witness :
  fst (fromRaw base_validate (VObj [("validate", VBool true)]) (fresh "serializable"))
  = Throw (Err ENCODING_ERROR None).
Proof.
  exact (proj1 (@fromRaw_validate_key_fails base_validate
                  (VObj [("validate", VBool true)]) (fresh "serializable")
                  (or_introl eq_refl) (or_introl eq_refl))).
Defined.

Lemma index_key_inj (i j : nat) : index_key i = index_key j -> i = j.
Proof.
  unfold index_key. intro H.
  apply (f_equal NilEmpty.uint_of_string) in H.
  rewrite !NilEmpty.usu in H. injection H as H.
  now apply DecimalNat.Unsigned.to_uint_inj.
Qed.

Lemma index_key_not_type (i : nat) : String.eqb "type" (index_key i) = false.
Proof.
  apply String.eqb_neq. intro H. unfold index_key in H.
  apply (f_equal NilEmpty.uint_of_string) in H.
  rewrite NilEmpty.usu in H. discriminate H.
Qed.

Lemma keys_indexed (vals : list value) :
  forall n k, In k (keys (indexed n vals)) -> exists i, n <= i /\ k = index_key i.
Proof.
  induction vals as [|x tl IH]; intros n k Hin; cbn [indexed keys map fst In] in Hin;
    [contradiction|].
  destruct Hin as [<-|Hin]; [eauto|].
  destruct (IH _ _ Hin) as (i & Hi & ->). exists i. split; [lia | reflexivity].
Qed.

Lemma NoDup_indexed (vals : list value) :
  forall n, NoDup (keys (indexed n vals)).
Proof.
  induction vals as [|x tl IH]; intro n; cbn [indexed keys map fst]; constructor.
  - intro Hin. destruct (keys_indexed _ _ _ Hin) as (i & Hi & Heq).
    apply index_key_inj in Heq. lia.
  - apply IH.
Qed.

Lemma get_indexed (vals : list value) :
  forall n i x,
    nth_error vals i = Some x -> get (index_key (n + i)) (indexed n vals) = Some x.
Proof.
  induction vals as [|y tl IH]; intros n [|i] x H; cbn [nth_error] in H;
    try discriminate H; cbn [indexed get].
  - injection H as <-. now rewrite Nat.add_0_r, String.eqb_refl.
  - assert (Hne : String.eqb (index_key (n + S i)) (index_key n) = false).
    { apply String.eqb_neq. intro Heq. apply index_key_inj in Heq. lia. }
    rewrite Hne. replace (n + S i) with (S n + i) by lia. now apply IH.
Qed.

Lemma get_type_indexed (vals : list value) :
  forall n, get "type" (indexed n vals) = None.
Proof.
  induction vals as [|y tl IH]; intro n; cbn [indexed get]; [reflexivity|].
  now rewrite index_key_not_type.
Qed.

Lemma nth_error_chars (s : string) :
  forall i c, String.get i s = Some c ->
              nth_error (chars s) i = Some (VStr (String c "")).
Proof.
  induction s as [|a tl IH]; intros [|i] c H; cbn [String.get] in H;
    try discriminate H; cbn [chars nth_error].
  - now injection H as <-.
  - now apply IH.
Qed.

Lemma fromRaw_indexed (validate_of : string -> props -> result bool)
      (raw : value) (this : Serializable) (vals : list value) :
  own_entries raw = indexed 0 vals ->
  (fst (fromRaw validate_of raw this) = Ok tt \/
   fst (fromRaw validate_of raw this) = Throw (Err ENCODING_ERROR None)) /\
  forall i x, nth_error vals i = Some x ->
              get (index_key i) (own (snd (fromRaw validate_of raw this))) = Some x.
Proof.
  intro Hentries.
  assert (Htype : get "type" (own_entries raw) = None)
    by (rewrite Hentries; apply get_type_indexed).
  destruct (@Object_assign_completes _ (own this) (or_introl Htype)) as [o Hassign].
  split.
  - destruct (fromRaw_gate validate_of raw this Hassign) as [[_ ->]|[_ ->]]; auto.
  - intros i x Hnth. rewrite fromRaw_state, Hassign. cbn [own snd].
    assert (Hnd : NoDup (keys (own_entries raw)))
      by (rewrite Hentries; apply NoDup_indexed).
    rewrite (Object_assign_get _ _ Hassign Hnd (index_key i)), Hentries.
    pose proof (get_indexed vals 0 i Hnth) as Hi. cbn [Nat.add] in Hi.
    now rewrite Hi.
Qed.

(** X26.  [fromRaw] does not reject a raw value that is no mapping.  An
    array is restored as properties named by its indices, a string as
    properties holding its characters, and the call ends as the gate
    decides, never with a [TypeError]; [undefined], [null], a boolean or a
    number leaves the properties of the instance as they are. *)
Theorem fromRaw_accepts_non_mappings
  (validate_of : string -> props -> result bool) (this : Serializable) :
  (forall elems,
      (fst (fromRaw validate_of (VArr elems) this) = Ok tt \/
       fst (fromRaw validate_of (VArr elems) this) = Throw (Err ENCODING_ERROR None)) /\
      forall i x, nth_error elems i = Some x ->
                  get (index_key i) (own (snd (fromRaw validate_of (VArr elems) this)))
                  = Some x) /\
  (forall s,
      (fst (fromRaw validate_of (VStr s) this) = Ok tt \/
       fst (fromRaw validate_of (VStr s) this) = Throw (Err ENCODING_ERROR None)) /\
      forall i c, String.get i s = Some c ->
                  get (index_key i) (own (snd (fromRaw validate_of (VStr s) this)))
                  = Some (VStr (String c ""))) /\
  (forall b n,
      snd (fromRaw validate_of VUndefined this) = this /\
      snd (fromRaw validate_of VNull this) = this /\
      snd (fromRaw validate_of (VBool b) this) = this /\
      snd (fromRaw validate_of (VNum n) this) = this).
Proof.
  split; [|split].
  - intro elems. exact (@fromRaw_indexed validate_of (VArr elems) this elems eq_refl).
  - intro s.
    destruct (@fromRaw_indexed validate_of (VStr s) this (chars s) eq_refl)
      as [Hr Hget].
    split; [exact Hr|]. intros i c Hc. apply Hget. now apply nth_error_chars.
  - intros b n. rewrite !fromRaw_state. cbn [own_entries Object_assign snd].
    now destruct this.
Qed.

(** * The methods as the runtime runs them *)

(** ** [Runtime.toRaw] *)

Lemma convert_all_fold (classes : string -> Runtime.class_def) (elems : list value) :
  fold_right
    (fun each rest =>
       let* x := match each with
                 | VSer _ _ =>
                     let* r := Runtime.dispatch_toRaw classes each
                                 (Runtime.toRaw classes [] each) in
                     Ok (VObj r)
                 | _ => Ok each
                 end in
       let* xs := rest in
       Ok (x :: xs))
    (Ok []) elems
  = Runtime.convert_all classes elems.
Proof.
  induction elems as [|each tl IH]; [reflexivity|].
  cbn [fold_right Runtime.convert_all]. rewrite IH.
  unfold Runtime.convert_each, Runtime.call_nested. now destruct each.
Qed.

Lemma runtime_toRaw_unfold (classes : string -> Runtime.class_def)
      (exclude : list string) (c : string) (fields : props) :
  Runtime.toRaw classes exclude (VSer c fields)
  = fold_left (toRaw_turn classes exclude) fields (Ok []).
Proof.
  cbn [Runtime.toRaw]. generalize (@Ok props []) as acc.
  induction fields as [|[prop val] tl IH]; intro acc; cbn [fold_left]; [reflexivity|].
  rewrite IH. f_equal. unfold toRaw_turn. cbn [fst snd].
  destruct acc as [raw|e]; cbn [bind]; [|reflexivity].
  destruct (is_private prop || includes exclude prop); [reflexivity|].
  destruct val as [| | | | |elems|fs|c' fs]; try reflexivity.
  - rewrite convert_all_fold. unfold Runtime.convert.
    now destruct (Runtime.convert_all classes elems).
  - unfold Runtime.convert, Runtime.call_nested.
    now destruct (Runtime.dispatch_toRaw classes (VSer c' fs)
                    (Runtime.toRaw classes [] (VSer c' fs))).
Qed.

Lemma toRaw_turns_Throw (classes : string -> Runtime.class_def)
      (exclude : list string) (fields : props) (e : exn) :
  fold_left (toRaw_turn classes exclude) fields (Throw e) = Throw e.
Proof. induction fields as [|entry tl IH]; [reflexivity | exact IH]. Qed.

(** What one turn that ends well has done. *)
Lemma toRaw_turn_Ok (classes : string -> Runtime.class_def) (exclude : list string)
      (raw raw' : props) (k : string) (val : value) :
  toRaw_turn classes exclude (Ok raw) (k, val) = Ok raw' ->
  (is_private k || includes exclude k = true /\ raw' = raw) \/
  (is_private k = false /\ includes exclude k = false /\
   exists v, Runtime.convert classes val = Ok v /\ raw' = set_prop raw k v).
Proof.
  unfold toRaw_turn. cbn [bind fst snd].
  destruct (is_private k || includes exclude k) eqn:E.
  - intros [= <-]. now left.
  - apply orb_false_elim in E as [Ep Ex].
    destruct (Runtime.convert classes val) as [v|e]; cbn [bind]; [|discriminate].
    intros [= <-]. right. eauto.
Qed.

Lemma toRaw_turns_Ok (classes : string -> Runtime.class_def) (exclude : list string)
      (fields : props) :
  forall raw m,
    fold_left (toRaw_turn classes exclude) fields (Ok raw) = Ok m ->
    (NoDup (keys raw) -> NoDup (keys m)) /\
    (forall p, In p (keys m) <->
               In p (keys raw) \/
               (In p (keys fields) /\ is_private p = false /\ includes exclude p = false)) /\
    (NoDup (keys fields) ->
     forall p, is_private p = false -> includes exclude p = false ->
               match get p fields with
               | Some val => exists v, Runtime.convert classes val = Ok v /\ get p m = Some v
               | None => get p m = get p raw
               end).
Proof.
  induction fields as [|[k val] tl IH]; intros raw m H; cbn [fold_left] in H.
  - injection H as <-. cbn [keys map In get]. intuition.
  - destruct (toRaw_turn classes exclude (Ok raw) (k, val)) as [raw'|e] eqn:E;
      [|rewrite toRaw_turns_Throw in H; discriminate H].
    destruct (IH _ _ H) as (Hnd & Hkeys & Hget).
    apply toRaw_turn_Ok in E as [[Eskip ->]|(Ep & Ex & v & Hv & ->)].
    + split; [exact Hnd|]. split.
      * intro p. rewrite Hkeys. cbn [keys map fst In].
        split; [intuition|]. intros [Hp|[[<-|Hp] [Hpub Hx]]]; [now left| |right; auto].
        rewrite Hpub, Hx in Eskip. discriminate Eskip.
      * intros Hndf p Hpub Hx. inversion Hndf as [|? ? Hnotin Htl]; subst.
        cbn [get]. destruct (String.eqb p k) eqn:Epk.
        -- apply String.eqb_eq in Epk. subst k.
           rewrite Hpub, Hx in Eskip. discriminate Eskip.
        -- exact (Hget Htl p Hpub Hx).
    + split; [intro Hr; apply Hnd; now apply NoDup_set_prop|]. split.
      * intro p. rewrite Hkeys, keys_set_prop. cbn [keys map fst In].
        split.
        -- intros [[->|Hp]|Hp]; [right; auto | now left | right; intuition].
        -- intros [Hp|[[<-|Hp] Hc]]; [left; now right | left; now left | right; auto].
      * intros Hndf p Hpub Hx. inversion Hndf as [|? ? Hnotin Htl]; subst.
        specialize (Hget Htl p Hpub Hx). cbn [get].
        destruct (String.eqb p k) eqn:Epk.
        -- apply String.eqb_eq in Epk. subst k.
           apply get_None_iff in Hnotin. rewrite Hnotin in Hget.
           exists v. split; [exact Hv|]. rewrite Hget. apply get_set_prop_same.
        -- destruct (get p tl); [exact Hget|]. rewrite Hget.
           apply get_set_prop_other. now apply String.eqb_neq.
Qed.

Lemma toRaw_turns_return (classes : string -> Runtime.class_def) (exclude : list string)
      (fields : props) :
  (forall p val, In (p, val) fields ->
                 is_private p = false -> includes exclude p = false ->
                 exists v, Runtime.convert classes val = Ok v) ->
  forall raw, exists m, fold_left (toRaw_turn classes exclude) fields (Ok raw) = Ok m.
Proof.
  induction fields as [|[k val] tl IH]; intros Hall raw; cbn [fold_left]; [eauto|].
  assert (Htl : forall p v, In (p, v) tl -> is_private p = false ->
                            includes exclude p = false ->
                            exists v', Runtime.convert classes v = Ok v')
    by (intros p v Hin; apply Hall; now right).
  unfold toRaw_turn at 2. cbn [bind fst snd].
  destruct (is_private k || includes exclude k) eqn:E; [now apply IH|].
  apply orb_false_elim in E as [Ep Ex].
  destruct (Hall k val (or_introl eq_refl) Ep Ex) as [v Hv].
  rewrite Hv. cbn [bind]. now apply IH.
Qed.

Lemma convert_all_without_instance (classes : string -> Runtime.class_def)
      (elems : list value) :
  existsb (fun each => match each with VSer _ _ => true | _ => false end) elems = false ->
  Runtime.convert_all classes elems = Ok elems.
Proof.
  induction elems as [|each tl IH]; cbn [existsb Runtime.convert_all]; [reflexivity|].
  intro H. apply orb_false_elim in H as [Heach Htl]. rewrite (IH Htl).
  now destruct each.
Qed.

Lemma convert_without_entity (classes : string -> Runtime.class_def) (val : value) :
  holds_entity val = false -> Runtime.convert classes val = Ok val.
Proof.
  destruct val as [| | | | |elems|fs|c fs]; cbn [holds_entity Runtime.convert];
    try reflexivity; [|discriminate].
  intro H. now rewrite convert_all_without_instance.
Qed.

Lemma convert_all_Forall2 (classes : string -> Runtime.class_def) (elems : list value) :
  forall l, Runtime.convert_all classes elems = Ok l ->
            Forall2 (fun each x => Runtime.convert_each classes each = Ok x) elems l.
Proof.
  induction elems as [|each tl IH]; intros l H; cbn [Runtime.convert_all] in H.
  - injection H as <-. constructor.
  - destruct (Runtime.convert_each classes each) as [x|e] eqn:Ex; [|discriminate H].
    cbn [bind] in H.
    destruct (Runtime.convert_all classes tl) as [xs|e]; [|discriminate H].
    injection H as <-. constructor; [exact Ex | now apply IH].
Qed.

(** C7 fails as stated: [toRaw] does not produce a mapping for every
    entity.  When a nested entity has an own data property named [toRaw],
    the call [val.toRaw()] finds that property and throws. *)
Lemma toRaw_throws_on_shadowed_nested_method :
  Runtime.toRaw base_classes [] shadowed_vault
  = Throw (TypeError "val.toRaw is not a function").
Proof. reflexivity. Qed.

(** C7, as the code has it.  Whenever [toRaw(xs)] returns, it returns a
    mapping (pairwise distinct keys) whose properties are exactly the own
    properties of the entity that neither start with the private prefix
    nor occur in [xs]; each holds the entity's value, as it is when the
    value is neither an entity nor an array with an entity element, and
    with the result of [val.toRaw()] in place of an entity.  [toRaw(xs)]
    returns when each of these nested calls returns. *)
Theorem toRaw_returns_the_public_properties
  (classes : string -> Runtime.class_def)
  (c : string) (fields : props) (xs : list string) :
  NoDup (keys fields) ->
  (forall m,
      Runtime.toRaw classes xs (VSer c fields) = Ok m ->
      NoDup (keys m) /\
      (forall p, In p (keys m) <->
                 In p (keys fields) /\ String.prefix "_" p = false /\ ~ In p xs) /\
      (forall p val,
          String.prefix "_" p = false -> ~ In p xs -> get p fields = Some val ->
          (exists v, Runtime.convert classes val = Ok v /\ get p m = Some v) /\
          (holds_entity val = false -> get p m = Some val))) /\
  ((forall p val, In (p, val) fields -> String.prefix "_" p = false -> ~ In p xs ->
                  exists v, Runtime.convert classes val = Ok v) ->
   exists m, Runtime.toRaw classes xs (VSer c fields) = Ok m).
Proof.
  intro Hnd. rewrite runtime_toRaw_unfold. split.
  - intros m Hm. destruct (toRaw_turns_Ok _ _ _ _ Hm) as (Hndm & Hkeys & Hget).
    split; [apply Hndm; constructor|]. split.
    + intro p. rewrite Hkeys, includes_false_iff. cbn [keys map In]. intuition.
    + intros p val Hp Hx Hval.
      specialize (Hget Hnd p Hp (proj2 (includes_false_iff xs p) Hx)).
      rewrite Hval in Hget. split; [exact Hget|].
      intro Hplain. destruct Hget as (v & Hv & Hgm).
      rewrite (convert_without_entity classes val Hplain) in Hv. congruence.
  - intro Hall. apply toRaw_turns_return.
    intros p val Hin Hp Hx. apply (Hall p val Hin Hp).
    now apply includes_false_iff.
Qed.

Lemma toRaw_returns_the_public_properties_witness :
  exists m,
    Runtime.toRaw sealing_classes ["name"] sealed_vault = Ok m /\
    get "name" m = None /\
    get "owner" m = Some (VObj [("sealed", VBool true)]) /\
    get "items" m = Some (VArr [VObj [("name", VStr "door")]; VNum 3]).
Proof.
  assert (Hnd : NoDup (keys [("name", VStr "work");
                             ("owner", VSer "sealed" [("name", VStr "ann")]);
                             ("items", VArr [VSer "item" [("name", VStr "door")]; VNum 3])])).
  { repeat constructor; cbn; intuition discriminate. }
  eexists. split; [reflexivity|].
  destruct (proj1 (@toRaw_returns_the_public_properties sealing_classes "vault"
                     _ ["name"] Hnd) _ eq_refl) as (_ & _ & Hval).
  split; [reflexivity|]. split.
  - destruct (proj1 (Hval "owner" _ eq_refl
                       ltac:(intros [H|[]]; discriminate H) eq_refl))
      as (v & Hv & Hget).
    injection Hv as <-. exact Hget.
  - destruct (proj1 (Hval "items" _ eq_refl
                       ltac:(intros [H|[]]; discriminate H) eq_refl))
      as (v & Hv & Hget).
    injection Hv as <-. exact Hget.
Defined.

(** C9.  The exclusion list reaches the top level only.  A property that
    holds a nested entity is stored as what the call [val.toRaw()] returns,
    a call without argument, so with the empty exclusion list when the
    entity inherits the base method, and the parent's list plays no part
    in it; when that call throws, so does the parent's [toRaw].  An array
    property has each element that is an entity replaced likewise. *)
Theorem nested_toRaw_takes_no_exclusion
  (classes : string -> Runtime.class_def)
  (c : string) (fields : props) (xs : list string) (p : string) :
  NoDup (keys fields) ->
  is_private p = false -> ~ In p xs ->
  (forall c' fs',
      get p fields = Some (VSer c' fs') ->
      (forall m, Runtime.toRaw classes xs (VSer c fields) = Ok m ->
                 exists r, Runtime.call_nested classes (VSer c' fs') = Ok r /\
                           get p m = Some (VObj r)) /\
      (forall e, Runtime.call_nested classes (VSer c' fs') = Throw e ->
                 exists e', Runtime.toRaw classes xs (VSer c fields) = Throw e') /\
      (Runtime.toRaw_override (classes c') = None -> has_own "toRaw" fs' = false ->
       Runtime.call_nested classes (VSer c' fs')
       = Runtime.toRaw classes [] (VSer c' fs'))) /\
  (forall elems,
      get p fields = Some (VArr elems) ->
      forall m, Runtime.toRaw classes xs (VSer c fields) = Ok m ->
                exists l,
                  get p m = Some (VArr l) /\
                  Forall2 (fun each x =>
                             match each with
                             | VSer _ _ =>
                                 exists r, Runtime.call_nested classes each = Ok r /\
                                           x = VObj r
                             | _ => x = each
                             end) elems l).
Proof.
  intros Hnd Hp Hx.
  assert (Hget : forall m val,
             Runtime.toRaw classes xs (VSer c fields) = Ok m ->
             get p fields = Some val ->
             exists v, Runtime.convert classes val = Ok v /\ get p m = Some v).
  { intros m val Hm Hval. rewrite runtime_toRaw_unfold in Hm.
    pose proof (proj2 (proj2 (toRaw_turns_Ok _ _ _ _ Hm)) Hnd p Hp
                  (proj2 (includes_false_iff xs p) Hx)) as H.
    now rewrite Hval in H. }
  split.
  - intros c' fs' Hval. split; [|split].
    + intros m Hm. destruct (Hget m _ Hm Hval) as (v & Hv & Hgm).
      cbn [Runtime.convert] in Hv.
      destruct (Runtime.call_nested classes (VSer c' fs')) as [r|e]; [|discriminate Hv].
      injection Hv as <-. eauto.
    + intros e He.
      destruct (Runtime.toRaw classes xs (VSer c fields)) as [m|e'] eqn:Hm; [|eauto].
      destruct (Hget m _ eq_refl Hval) as (v & Hv & _).
      cbn [Runtime.convert] in Hv. rewrite He in Hv. discriminate Hv.
    + intros Hbase Hown. unfold Runtime.call_nested, Runtime.dispatch_toRaw.
      now rewrite Hown, Hbase.
  - intros elems Hval m Hm. destruct (Hget m _ Hm Hval) as (v & Hv & Hgm).
    cbn [Runtime.convert] in Hv.
    destruct (Runtime.convert_all classes elems) as [l|e] eqn:Hl; [|discriminate Hv].
    injection Hv as <-. exists l. split; [exact Hgm|].
    apply convert_all_Forall2 in Hl. clear - Hl.
    induction Hl as [|each x tl l' Hx' Hl IH]; constructor; [|exact IH].
    unfold Runtime.convert_each in Hx'.
    destruct each as [| | | | |es|fs|c' fs]; try (now injection Hx' as <-).
    destruct (Runtime.call_nested classes (VSer c' fs)) as [r|e];
      [|discriminate Hx'].
    injection Hx' as <-. eauto.
Qed.

Lemma nested_toRaw_takes_no_exclusion_witness :
  exists m,
    Runtime.toRaw base_classes ["name"] (instance vault_example) = Ok m /\
    (exists r, Runtime.call_nested base_classes
                 (VSer "member" [("name", VStr "ann"); ("_key", VNum 7)]) = Ok r /\
               get "owner" m = Some (VObj r)) /\
    Runtime.call_nested base_classes
      (VSer "member" [("name", VStr "ann"); ("_key", VNum 7)])
    = Ok [("name", VStr "ann")].
Proof.
  assert (Hnd : NoDup (keys (own vault_example))).
  { repeat constructor; cbn; intuition discriminate. }
  eexists. split; [reflexivity|]. split; [|reflexivity].
  exact (proj1 (proj1 (@nested_toRaw_takes_no_exclusion base_classes "vault"
                         (own vault_example) ["name"] "owner" Hnd eq_refl
                         ltac:(intros [H|[]]; discriminate H))
                  "member" _ eq_refl)
           _ eq_refl).
Defined.

(** ** [Runtime.Object_assign] and [Runtime.fromRaw] *)

Lemma inherited_Proto_setter (p : Runtime.prototype) (k : string) :
  Runtime.inherited p k = Runtime.Proto_setter -> k = "__proto__".
Proof.
  assert (Hclass : Runtime.class_slot k = Runtime.Proto_setter -> k = "__proto__").
  { unfold Runtime.class_slot. destruct (String.eqb k "type"); [discriminate|].
    destruct (String.eqb k "__proto__") eqn:E; [|discriminate].
    intros _. now apply String.eqb_eq. }
  assert (Hplain : (if String.eqb k "__proto__"
                    then Runtime.Proto_setter else Runtime.Creates_own)
                   = Runtime.Proto_setter -> k = "__proto__").
  { destruct (String.eqb k "__proto__") eqn:E; [|discriminate].
    intros _. now apply String.eqb_eq. }
  destruct p as [c|v|]; cbn [Runtime.inherited]; [exact Hclass| |discriminate].
  destruct v as [| | | | |es|fs|c fs]; try exact Hplain;
    destruct (has_own k fs); try discriminate; assumption.
Qed.

Lemma fields_set_prototype (o : Runtime.object) (v : value) :
  Runtime.fields (Runtime.set_prototype o v) = Runtime.fields o.
Proof. now destruct v. Qed.

Lemma runtime_put_Ok (o o' : Runtime.object) (k : string) (v : value) :
  Runtime.put o k v = Ok o' ->
  o' = {| Runtime.proto := Runtime.proto o;
          Runtime.fields := set_prop (Runtime.fields o) k v |} \/
  (k = "__proto__" /\ has_own k (Runtime.fields o) = false /\
   Runtime.inherited (Runtime.proto o) k = Runtime.Proto_setter /\
   o' = Runtime.set_prototype o v).
Proof.
  unfold Runtime.put. destruct (has_own k (Runtime.fields o)) eqn:Hown.
  - intro H. injection H as <-. now left.
  - destruct (Runtime.inherited (Runtime.proto o) k) eqn:Hin; intro H;
      [|injection H as <-|discriminate H].
    + injection H as <-. now left.
    + right. pose proof (inherited_Proto_setter _ _ Hin). auto.
Qed.

Lemma runtime_put_other (o o' : Runtime.object) (k : string) (v : value) :
  k <> "__proto__" ->
  Runtime.put o k v = Ok o' ->
  o' = {| Runtime.proto := Runtime.proto o;
          Runtime.fields := set_prop (Runtime.fields o) k v |}.
Proof.
  intros Hk H. destruct (runtime_put_Ok _ _ _ H) as [H'|(Hk' & _)];
    [exact H' | contradiction].
Qed.

Lemma has_own_get (k : string) (o : props) :
  has_own k o = false <-> get k o = None.
Proof.
  unfold has_own. destruct (get k o); split; intro H; congruence.
Qed.

(** Whatever [Object.assign] ends in, it removes no own property, keeps
    the keys distinct, leaves alone the properties the source does not
    name, and leaves the prototype alone unless the source names
    [__proto__]. *)
Lemma runtime_assign_invariants (entries : props) :
  forall (o o' : Runtime.object) (r : result unit),
    Runtime.Object_assign o entries = (r, o') ->
    (forall k, In k (keys (Runtime.fields o)) -> In k (keys (Runtime.fields o'))) /\
    (NoDup (keys (Runtime.fields o)) -> NoDup (keys (Runtime.fields o'))) /\
    (forall k, get k entries = None ->
               get k (Runtime.fields o') = get k (Runtime.fields o)) /\
    (get "__proto__" entries = None -> Runtime.proto o' = Runtime.proto o).
Proof.
  induction entries as [|[k v] rest IH]; intros o o' r H; cbn [Runtime.Object_assign] in H.
  - injection H as <- <-. auto.
  - destruct (Runtime.put o k v) as [o1|e] eqn:Hput.
    + destruct (IH _ _ _ H) as (Hkeys & Hnd & Hget & Hproto).
      assert (Hstep :
                (forall p, In p (keys (Runtime.fields o)) ->
                           In p (keys (Runtime.fields o1))) /\
                (NoDup (keys (Runtime.fields o)) -> NoDup (keys (Runtime.fields o1))) /\
                (forall p, p <> k ->
                           get p (Runtime.fields o1) = get p (Runtime.fields o)) /\
                (k <> "__proto__" -> Runtime.proto o1 = Runtime.proto o)).
      { destruct (runtime_put_Ok _ _ _ Hput) as [->|(Hk & _ & _ & ->)];
          cbn [Runtime.fields Runtime.proto].
        - split; [|split; [|split]].
          + intros p Hp. apply keys_set_prop. now right.
          + apply NoDup_set_prop.
          + intros p Hp. now apply get_set_prop_other.
          + reflexivity.
        - rewrite fields_set_prototype. repeat split; auto. contradiction. }
      destruct Hstep as (Hkeys1 & Hnd1 & Hget1 & Hproto1).
      split; [|split; [|split]].
      * auto.
      * auto.
      * intros p Hp. cbn [get] in Hp.
        destruct (String.eqb p k) eqn:E; [discriminate Hp|].
        apply String.eqb_neq in E. rewrite (Hget p Hp). now apply Hget1.
      * intro Hp. cbn [get] in Hp.
        destruct (String.eqb "__proto__" k) eqn:E; [discriminate Hp|].
        apply String.eqb_neq in E. rewrite (Hproto Hp). apply Hproto1. congruence.
    + injection H as <- <-. cbn [get]. repeat split; auto.
Qed.

(** When [Object.assign] completes, every property of the source other
    than [__proto__] is an own property of the target, with the source's
    value. *)
Lemma runtime_assign_get (entries : props) :
  forall (o o' : Runtime.object),
    Runtime.Object_assign o entries = (Ok tt, o') ->
    NoDup (keys entries) ->
    forall k v, k <> "__proto__" -> get k entries = Some v ->
                get k (Runtime.fields o') = Some v.
Proof.
  induction entries as [|[k0 v0] rest IH]; intros o o' H Hnd k v Hk Hget;
    cbn [Runtime.Object_assign] in H; [discriminate Hget|].
  cbn [keys map fst] in Hnd. inversion Hnd as [|? ? Hnotin Hrest]; subst.
  destruct (Runtime.put o k0 v0) as [o1|e] eqn:Hput; [|discriminate H].
  cbn [get] in Hget. destruct (String.eqb k k0) eqn:E.
  - injection Hget as <-. apply String.eqb_eq in E. subst k0.
    rewrite (proj1 (proj2 (proj2 (runtime_assign_invariants _ _ H))) k
               (proj2 (get_None_iff rest k) Hnotin)).
    rewrite (@runtime_put_other _ _ _ _ Hk Hput). cbn [Runtime.fields].
    apply get_set_prop_same.
  - exact (IH _ _ H Hrest k v Hk Hget).
Qed.

(** On an instance that inherits the accessor [__proto__] and has no own
    property of that name, [Object.assign] creates none: a key
    [__proto__] of the source reaches the setter, which replaces the
    prototype by an object or [null] and ignores any other value. *)
Lemma runtime_assign_proto (entries : props) :
  forall (o o' : Runtime.object) (v : value),
    Runtime.Object_assign o entries = (Ok tt, o') ->
    NoDup (keys entries) ->
    get "__proto__" entries = Some v ->
    has_own "__proto__" (Runtime.fields o) = false ->
    Runtime.inherited (Runtime.proto o) "__proto__" = Runtime.Proto_setter ->
    get "__proto__" (Runtime.fields o') = None /\
    Runtime.proto o' = Runtime.proto (Runtime.set_prototype o v).
Proof.
  induction entries as [|[k0 v0] rest IH]; intros o o' v H Hnd Hget Hown Hin;
    cbn [Runtime.Object_assign] in H; [discriminate Hget|].
  cbn [keys map fst] in Hnd. inversion Hnd as [|? ? Hnotin Hrest]; subst.
  destruct (Runtime.put o k0 v0) as [o1|e] eqn:Hput; [|discriminate H].
  cbn [get] in Hget. destruct (String.eqb "__proto__" k0) eqn:E.
  - injection Hget as <-. apply String.eqb_eq in E. subst k0.
    unfold Runtime.put in Hput. rewrite Hown, Hin in Hput. injection Hput as <-.
    destruct (runtime_assign_invariants _ _ H) as (_ & _ & Hsame & Hproto).
    pose proof (proj2 (get_None_iff rest "__proto__") Hnotin) as Hnone.
    rewrite (Hsame _ Hnone), (Hproto Hnone), fields_set_prototype.
    split; [now apply has_own_get | reflexivity].
  - apply String.eqb_neq in E.
    assert (Hk0 : k0 <> "__proto__") by congruence.
    pose proof (@runtime_put_other _ _ _ _ Hk0 Hput) as Ho1.
    assert (Hown1 : has_own "__proto__" (Runtime.fields o1) = false).
    { subst o1. cbn [Runtime.fields]. apply has_own_get.
      rewrite get_set_prop_other by exact E. now apply has_own_get. }
    assert (Hin1 : Runtime.inherited (Runtime.proto o1) "__proto__"
                   = Runtime.Proto_setter) by now subst o1.
    destruct (IH _ _ _ H Hrest Hget Hown1 Hin1) as (Hnone & Hproto).
    split; [exact Hnone|]. rewrite Hproto. subst o1. now destruct v.
Qed.

Lemma runtime_fromRaw_state (classes : string -> Runtime.class_def)
      (raw : value) (this : Runtime.object) :
  snd (Runtime.fromRaw classes raw this)
  = snd (Runtime.Object_assign this (own_entries raw)).
Proof.
  unfold Runtime.fromRaw.
  now destruct (Runtime.Object_assign this (own_entries raw)) as [[[]|e] o].
Qed.

(** The gate of [fromRaw] once the assignment has completed: it returns
    when [this.validate()] returns [true], and throws the encoding error
    otherwise, also when [validate] throws or is no function. *)
Lemma runtime_fromRaw_gate (classes : string -> Runtime.class_def)
      (raw : value) (this o : Runtime.object) :
  Runtime.Object_assign this (own_entries raw) = (Ok tt, o) ->
  (Runtime.call_validate classes o = Ok true /\
   Runtime.fromRaw classes raw this = (Ok tt, o)) \/
  (Runtime.call_validate classes o <> Ok true /\
   Runtime.fromRaw classes raw this = (Throw (Err ENCODING_ERROR None), o)).
Proof.
  intro H. unfold Runtime.fromRaw. rewrite H.
  destruct (Runtime.call_validate classes o) as [[|]|e]; cbn.
  - now left.
  - right. split; [discriminate | reflexivity].
  - right. split; [discriminate | reflexivity].
Qed.

Lemma runtime_fromRaw_Ok (classes : string -> Runtime.class_def)
      (raw : value) (this this' : Runtime.object) :
  Runtime.fromRaw classes raw this = (Ok tt, this') ->
  Runtime.Object_assign this (own_entries raw) = (Ok tt, this') /\
  Runtime.call_validate classes this' = Ok true.
Proof.
  unfold Runtime.fromRaw.
  destruct (Runtime.Object_assign this (own_entries raw)) as [[[]|e] o];
    [|intro H; discriminate H].
  destruct (Runtime.call_validate classes o) as [[|]|e] eqn:Hv; cbn; intro H;
    [|discriminate H..].
  injection H as <-. auto.
Qed.

Lemma runtime_toRaw_private_key (classes : string -> Runtime.class_def)
      (c : string) (fields m : props) (xs : list string) (k : string) :
  is_private k = true ->
  Runtime.toRaw classes xs (VSer c fields) = Ok m ->
  get k m = None.
Proof.
  intros Hk Hm. rewrite runtime_toRaw_unfold in Hm.
  apply get_None_iff. rewrite (proj1 (proj2 (toRaw_turns_Ok _ _ _ _ Hm)) k).
  cbn [keys map In]. intros [[]|(_ & Hp & _)]. congruence.
Qed.

(** C5.  When the assignment of [fromRaw] has completed and
    [this.validate()] then does not return [true] (it returns [false],
    throws, or is no function), [fromRaw] throws the encoding error and
    leaves the instance in the state the assignment produced, with no
    return to the state before the call: every property of the raw value
    other than [__proto__] is an own property of the instance with the raw
    value's value, the properties the raw value does not name are as
    before, and a key [__proto__] has reached the inherited setter, which
    creates no own property and has replaced the prototype if the value is
    an object or [null]. *)
Theorem fromRaw_throws_after_assigning
  (classes : string -> Runtime.class_def)
  (this o : Runtime.object) (raw : value) :
  NoDup (keys (own_entries raw)) ->
  Runtime.Object_assign this (own_entries raw) = (Ok tt, o) ->
  Runtime.call_validate classes o <> Ok true ->
  Runtime.fromRaw classes raw this = (Throw (Err ENCODING_ERROR None), o) /\
  (forall k v, k <> "__proto__" -> get k (own_entries raw) = Some v ->
               get k (Runtime.fields o) = Some v) /\
  (forall k, get k (own_entries raw) = None ->
             get k (Runtime.fields o) = get k (Runtime.fields this)) /\
  (forall c v,
      Runtime.proto this = Runtime.ClassProto c ->
      has_own "__proto__" (Runtime.fields this) = false ->
      get "__proto__" (own_entries raw) = Some v ->
      get "__proto__" (Runtime.fields o) = None /\
      Runtime.proto o = Runtime.proto (Runtime.set_prototype this v)).
Proof.
  intros Hnd Hassign Hinvalid.
  destruct (runtime_fromRaw_gate classes raw this Hassign) as [[Hv _]|[_ H]];
    [contradiction|].
  split; [exact H|]. split; [|split].
  - exact (runtime_assign_get _ _ Hassign Hnd).
  - exact (proj1 (proj2 (proj2 (runtime_assign_invariants _ _ Hassign)))).
  - intros c v Hproto Hown Hget.
    apply (runtime_assign_proto _ _ Hassign Hnd Hget Hown).
    now rewrite Hproto.
Qed.

Lemma fromRaw_throws_after_assigning_witness :
  Runtime.fromRaw example_classes
    (VObj [("email", VNum 1); ("_session", VStr "s1"); ("__proto__", VNum 5)])
    (Runtime.of_Serializable account_example)
  = (Throw (Err ENCODING_ERROR None),
     Runtime.instance_of "account"
       [("email", VNum 1); ("tags", VArr [VStr "x"; VNum 2]); ("_session", VStr "s1")]).
Proof.
  refine (proj1 (@fromRaw_throws_after_assigning example_classes
                   (Runtime.of_Serializable account_example)
                   (Runtime.instance_of "account"
                      [("email", VNum 1); ("tags", VArr [VStr "x"; VNum 2]);
                       ("_session", VStr "s1")])
                   (VObj [("email", VNum 1); ("_session", VStr "s1");
                          ("__proto__", VNum 5)])
                   _ eq_refl _)).
  - repeat constructor; cbn; intuition discriminate.
  - vm_compute. discriminate.
Defined.

(** C10 fails as stated: a key [__proto__] of the raw value, as
    [JSON.parse] creates it, is not copied onto the entity.  The
    assignment reaches the inherited setter; [fromRaw] returns and the
    entity has no such property. *)
Lemma fromRaw_does_not_copy_the_proto_key :
  exists this',
    Runtime.fromRaw base_classes (VObj [("__proto__", VNum 5); ("_x", VNum 1)])
      (Runtime.instance_of "serializable" [])
    = (Ok tt, this') /\
    get "__proto__" (own_entries (VObj [("__proto__", VNum 5); ("_x", VNum 1)]))
    = Some (VNum 5) /\
    get "__proto__" (Runtime.fields this') = None.
Proof. eexists. repeat split. Qed.

(** C10, as the code has it.  A [fromRaw] that returns has copied every
    key of the raw value other than [__proto__] onto the entity, the keys
    with the private prefix among them, which no [toRaw] of the entity
    emits.  A key [__proto__] is not copied onto an instance that has no
    own property of that name. *)
Theorem fromRaw_copies_the_keys_other_than_proto
  (classes : string -> Runtime.class_def)
  (this this' : Runtime.object) (raw : value) :
  NoDup (keys (own_entries raw)) ->
  Runtime.fromRaw classes raw this = (Ok tt, this') ->
  (forall k v, k <> "__proto__" -> get k (own_entries raw) = Some v ->
               get k (Runtime.fields this') = Some v) /\
  (forall k v, is_private k = true -> k <> "__proto__" ->
               get k (own_entries raw) = Some v ->
               get k (Runtime.fields this') = Some v /\
               forall c xs m,
                 Runtime.toRaw classes xs (VSer c (Runtime.fields this')) = Ok m ->
                 get k m = None) /\
  (forall c v,
      Runtime.proto this = Runtime.ClassProto c ->
      has_own "__proto__" (Runtime.fields this) = false ->
      get "__proto__" (own_entries raw) = Some v ->
      get "__proto__" (Runtime.fields this') = None).
Proof.
  intros Hnd Hfrom. destruct (runtime_fromRaw_Ok _ _ _ Hfrom) as [Hassign _].
  pose proof (runtime_assign_get _ _ Hassign Hnd) as Hcopy.
  split; [exact Hcopy|]. split.
  - intros k v Hp Hk Hget. split; [exact (Hcopy k v Hk Hget)|].
    intros c xs m Hm. exact (runtime_toRaw_private_key _ _ _ _ _ Hp Hm).
  - intros c v Hproto Hown Hget.
    apply (runtime_assign_proto _ _ Hassign Hnd Hget Hown).
    now rewrite Hproto.
Qed.

Lemma fromRaw_copies_the_keys_other_than_proto_witness :
  get "_x" (Runtime.fields
              (snd (Runtime.fromRaw base_classes
                      (VObj [("name", VStr "n"); ("_x", VNum 1)])
                      (Runtime.instance_of "serializable" []))))
  = Some (VNum 1) /\
  Runtime.toRaw base_classes []
    (VSer "serializable"
       (Runtime.fields
          (snd (Runtime.fromRaw base_classes
                  (VObj [("name", VStr "n"); ("_x", VNum 1)])
                  (Runtime.instance_of "serializable" [])))))
  = Ok [("name", VStr "n")].
Proof.
  split; [|reflexivity].
  refine (proj1 (proj1 (proj2 (@fromRaw_copies_the_keys_other_than_proto base_classes
                   (Runtime.instance_of "serializable" [])
                   (Runtime.instance_of "serializable"
                      [("name", VStr "n"); ("_x", VNum 1)])
                   (VObj [("name", VStr "n"); ("_x", VNum 1)]) _ eq_refl))
            "_x" (VNum 1) eq_refl _ eq_refl)).
  - repeat constructor; cbn; intuition discriminate.
  - discriminate.
Defined.

(** X14.  However [fromRaw] ends, the instance keeps every own property it
    had, its keys stay distinct, a property the raw value does not name
    keeps its value, and the prototype is the one it had unless the raw
    value has a key [__proto__]. *)
Theorem fromRaw_only_adds_or_overwrites
  (classes : string -> Runtime.class_def)
  (raw : value) (this : Runtime.object) :
  let this' := snd (Runtime.fromRaw classes raw this) in
  (forall k, In k (keys (Runtime.fields this)) -> In k (keys (Runtime.fields this'))) /\
  (NoDup (keys (Runtime.fields this)) -> NoDup (keys (Runtime.fields this'))) /\
  (forall k, get k (own_entries raw) = None ->
             get k (Runtime.fields this') = get k (Runtime.fields this)) /\
  (get "__proto__" (own_entries raw) = None ->
   Runtime.proto this' = Runtime.proto this).
Proof.
  cbv zeta. rewrite runtime_fromRaw_state.
  destruct (Runtime.Object_assign this (own_entries raw)) as [r o] eqn:H.
  exact (runtime_assign_invariants _ _ H).
Qed.

Lemma runtime_assign_present (entries : props) (o : Runtime.object) :
  (forall k v, In (k, v) entries -> get k (Runtime.fields o) = Some v) ->
  Runtime.Object_assign o entries = (Ok tt, o).
Proof.
  induction entries as [|[k0 v0] rest IH]; intro H; cbn [Runtime.Object_assign];
    [reflexivity|].
  assert (Hk : get k0 (Runtime.fields o) = Some v0) by (apply H; now left).
  unfold Runtime.put, has_own. rewrite Hk, (set_prop_same_value _ _ Hk).
  replace {| Runtime.proto := Runtime.proto o; Runtime.fields := Runtime.fields o |}
    with o by now destruct o.
  apply IH. intros k v Hin. apply H. now right.
Qed.

(** X16.  Restoring twice is restoring once.  For an instance of a class
    that keeps the base [fromRaw], and a raw value without the keys
    [__proto__] and [fromRaw], a call [this.fromRaw(raw)] that returned
    returns again when repeated, and leaves the instance exactly as it
    is. *)
Theorem fromRaw_twice
  (classes : string -> Runtime.class_def) (c : string)
  (raw : value) (this this' : Runtime.object) :
  Runtime.proto this = Runtime.ClassProto c ->
  Runtime.fromRaw_override (classes c) = None ->
  NoDup (keys (own_entries raw)) ->
  get "__proto__" (own_entries raw) = None ->
  get "fromRaw" (own_entries raw) = None ->
  Runtime.call_fromRaw classes raw this = (Ok tt, this') ->
  Runtime.call_fromRaw classes raw this' = (Ok tt, this').
Proof.
  intros Hproto Hbase Hnd Hnp Hnf Hcall.
  unfold Runtime.call_fromRaw, Runtime.lookup_method in Hcall.
  destruct (has_own "fromRaw" (Runtime.fields this)) eqn:Hown; [discriminate Hcall|].
  rewrite Hproto, Hbase in Hcall.
  destruct (runtime_fromRaw_Ok _ _ _ Hcall) as [Hassign Hvalid].
  destruct (runtime_assign_invariants _ _ Hassign) as (_ & _ & Hsame & Hkeep).
  unfold Runtime.call_fromRaw, Runtime.lookup_method.
  assert (Hown' : has_own "fromRaw" (Runtime.fields this') = false).
  { apply has_own_get. rewrite (Hsame _ Hnf). now apply has_own_get. }
  rewrite Hown', (Hkeep Hnp), Hproto, Hbase.
  assert (Hnoop : Runtime.Object_assign this' (own_entries raw) = (Ok tt, this')).
  { apply runtime_assign_present. intros k v Hin.
    apply (runtime_assign_get _ _ Hassign Hnd).
    - intros ->. apply (proj1 (get_None_iff _ _) Hnp).
      apply in_map_iff. exists ("__proto__", v). auto.
    - exact (@In_get _ _ _ Hnd Hin). }
  unfold Runtime.fromRaw. rewrite Hnoop, Hvalid. reflexivity.
Qed.

Lemma fromRaw_twice_witness :
  Runtime.call_fromRaw example_classes
    (VObj [("email", VStr "c@d.org"); ("_session", VStr "s1")])
    (Runtime.instance_of "account"
       [("email", VStr "c@d.org"); ("tags", VArr [VStr "x"; VNum 2]);
        ("_session", VStr "s1")])
  = (Ok tt,
     Runtime.instance_of "account"
       [("email", VStr "c@d.org"); ("tags", VArr [VStr "x"; VNum 2]);
        ("_session", VStr "s1")]).
Proof.
  refine (@fromRaw_twice example_classes "account"
            (VObj [("email", VStr "c@d.org"); ("_session", VStr "s1")])
            (Runtime.of_Serializable account_example) _
            eq_refl eq_refl _ eq_refl eq_refl eq_refl).
  repeat constructor; cbn; intuition discriminate.
Defined.

Lemma runtime_put_Throw (o : Runtime.object) (k : string) (v : value) (e : exn) :
  Runtime.put o k v = Throw e ->
  k = "type" /\ has_own "type" (Runtime.fields o) = false /\
  exists m, e = TypeError m.
Proof.
  unfold Runtime.put. destruct (has_own k (Runtime.fields o)) eqn:Hown; [discriminate|].
  destruct (Runtime.inherited (Runtime.proto o) k) eqn:Hin; try discriminate.
  intro H. injection H as <-.
  assert (Hk : k = "type").
  { assert (Hclass : Runtime.class_slot k = Runtime.No_setter -> k = "type").
    { unfold Runtime.class_slot. destruct (String.eqb k "type") eqn:E.
      - intros _. now apply String.eqb_eq.
      - destruct (String.eqb k "__proto__"); discriminate. }
    destruct (Runtime.proto o) as [c|p|]; cbn [Runtime.inherited] in Hin;
      [auto| |discriminate Hin].
    destruct p as [| | | | |es|fs|c fs];
      try (destruct (String.eqb k "__proto__"); discriminate Hin).
    - destruct (has_own k fs); [discriminate Hin|].
      destruct (String.eqb k "__proto__"); discriminate Hin.
    - destruct (has_own k fs); [discriminate Hin | auto]. }
  subst k. eauto.
Qed.

Lemma runtime_assign_completes (entries : props) :
  forall o : Runtime.object,
    get "type" entries = None ->
    exists o', Runtime.Object_assign o entries = (Ok tt, o').
Proof.
  induction entries as [|[k0 v0] rest IH]; intros o H; cbn [Runtime.Object_assign].
  - eauto.
  - cbn [get] in H. destruct (String.eqb "type" k0) eqn:E; [discriminate H|].
    destruct (Runtime.put o k0 v0) as [o1|e] eqn:Hput; [now apply IH|].
    apply runtime_put_Throw in Hput as (-> & _). discriminate E.
Qed.

Lemma runtime_assign_app (es1 es2 : props) :
  forall o,
    Runtime.Object_assign o (es1 ++ es2)
    = match Runtime.Object_assign o es1 with
      | (Ok _, o1) => Runtime.Object_assign o1 es2
      | (Throw e, o1) => (Throw e, o1)
      end.
Proof.
  induction es1 as [|[k v] rest IH]; intro o; cbn [app Runtime.Object_assign];
    [reflexivity|].
  destruct (Runtime.put o k v) as [o1|e]; [apply IH | reflexivity].
Qed.

(** X17.  The assignment stops at the key [type].  On an instance of a
    class, without an own property [type], and a raw value that names
    [type] with no [__proto__] before it, [fromRaw] throws a [TypeError]
    with the properties listed before [type] assigned, those after it not
    assigned, and [validate] not consulted. *)
Theorem fromRaw_stops_at_type
  (classes : string -> Runtime.class_def) (c : string)
  (raw v : value) (this : Runtime.object) (before after : props) :
  Runtime.proto this = Runtime.ClassProto c ->
  own_entries raw = (before ++ ("type", v) :: after)%list ->
  get "type" before = None ->
  get "__proto__" before = None ->
  has_own "type" (Runtime.fields this) = false ->
  exists m o,
    Runtime.Object_assign this before = (Ok tt, o) /\
    Runtime.fromRaw classes raw this = (Throw (TypeError m), o) /\
    (forall k, get k before = None ->
               get k (Runtime.fields o) = get k (Runtime.fields this)).
Proof.
  intros Hproto Hentries Hbefore Hnp Hown.
  destruct (@runtime_assign_completes before this Hbefore) as [o Ho].
  destruct (runtime_assign_invariants _ _ Ho) as (_ & _ & Hsame & Hkeep).
  assert (Htype : has_own "type" (Runtime.fields o) = false).
  { apply has_own_get. rewrite (Hsame _ Hbefore). now apply has_own_get. }
  unfold Runtime.fromRaw. rewrite Hentries, runtime_assign_app, Ho.
  cbn [Runtime.Object_assign]. unfold Runtime.put.
  rewrite Htype, (Hkeep Hnp), Hproto.
  cbn. eauto.
Qed.

Lemma fromRaw_stops_at_type_witness :
  exists m,
    Runtime.fromRaw base_classes
      (VObj [("name", VStr "n"); ("type", VStr "x"); ("rest", VNum 1)])
      (Runtime.instance_of "serializable" [])
    = (Throw (TypeError m), Runtime.instance_of "serializable" [("name", VStr "n")]).
Proof.
  destruct (@fromRaw_stops_at_type base_classes "serializable"
              (VObj [("name", VStr "n"); ("type", VStr "x"); ("rest", VNum 1)])
              (VStr "x") (Runtime.instance_of "serializable" [])
              [("name", VStr "n")] [("rest", VNum 1)]
              eq_refl eq_refl eq_refl eq_refl eq_refl)
    as (m & o & Ho & Hfrom & _).
  exists m. injection Ho as <-. exact Hfrom.
Defined.

(** ** The letter case of hexadecimal digits *)

Lemma lower_hex_letter_white_space (c : ascii) :
  is_white_space (lower_hex_letter c) = is_white_space c.
Proof. destruct c as [[] [] [] [] [] [] [] []]; reflexivity. Qed.

Lemma lower_hex_letter_hex_value (c : ascii) :
  hex_value (lower_hex_letter c) = hex_value c.
Proof. destruct c as [[] [] [] [] [] [] [] []]; reflexivity. Qed.

Lemma lower_hex_letters_skip_white_space (s : string) :
  skip_white_space (lower_hex_letters s) = lower_hex_letters (skip_white_space s).
Proof.
  induction s as [|c tl IH]; [reflexivity|].
  cbn [lower_hex_letters skip_white_space]. rewrite lower_hex_letter_white_space.
  now destruct (is_white_space c).
Qed.

Lemma lower_hex_letters_hex_prefix (s : string) :
  forall acc, hex_prefix (lower_hex_letters s) acc = hex_prefix s acc.
Proof.
  induction s as [|c tl IH]; intro acc; [reflexivity|].
  cbn [lower_hex_letters hex_prefix]. rewrite lower_hex_letter_hex_value.
  now destruct (hex_value c).
Qed.

Lemma lower_hex_letters_strip_0x (s : string) :
  strip_0x (lower_hex_letters s) = lower_hex_letters (strip_0x s).
Proof.
  destruct s as [|a [|b tl]]; [reflexivity | |].
  - destruct a as [[] [] [] [] [] [] [] []]; reflexivity.
  - destruct a as [[] [] [] [] [] [] [] []]; try reflexivity.
    destruct b as [[] [] [] [] [] [] [] []]; reflexivity.
Qed.

Lemma lower_hex_letters_digits (s : string) :
  hex_prefix (strip_0x (lower_hex_letters s)) None = hex_prefix (strip_0x s) None.
Proof. now rewrite lower_hex_letters_strip_0x, lower_hex_letters_hex_prefix. Qed.

Lemma lower_hex_letters_parseInt16 (s : string) :
  parseInt16 (lower_hex_letters s) = parseInt16 s.
Proof.
  unfold parseInt16. rewrite lower_hex_letters_skip_white_space.
  destruct (skip_white_space s) as [|c tl]; [reflexivity|].
  destruct c as [[] [] [] [] [] [] [] []]; cbn [lower_hex_letters];
    match goal with
    | |- _ = match hex_prefix (strip_0x ?x) None with _ => _ end =>
        rewrite <- (lower_hex_letters_digits x)
    end; reflexivity.
Qed.

Lemma lower_hex_letters_length (s : string) :
  String.length (lower_hex_letters s) = String.length s.
Proof. induction s as [|c tl IH]; cbn; [reflexivity | now rewrite IH]. Qed.

Lemma lower_hex_letters_substring (s : string) :
  forall n m, substring n m (lower_hex_letters s) = lower_hex_letters (substring n m s).
Proof.
  induction s as [|c tl IH]; intros [|n] [|m]; cbn [lower_hex_letters substring];
    try reflexivity; now rewrite IH.
Qed.

Lemma lower_hex_letters_pair_byte (s : string) (i : nat) :
  pair_byte (lower_hex_letters s) i = pair_byte s i.
Proof.
  unfold pair_byte, js_substring.
  now rewrite lower_hex_letters_length, lower_hex_letters_substring,
    lower_hex_letters_parseInt16.
Qed.

(** X5.  [hexToBytes] does not tell the hexadecimal letters [A]-[F] from
    [a]-[f]: writing every [A]-[F] of a string in lower case, wherever it
    stands, leaves the decoded bytes as they are. *)
Theorem hexToBytes_ignores_case_of_hex_letters (s : string) :
  hexToBytes (lower_hex_letters s) = hexToBytes s.
Proof.
  rewrite !hexToBytes_indices, lower_hex_letters_length. f_equal.
  apply map_ext. intro i. apply lower_hex_letters_pair_byte.
Qed.

(** * The round trip through bytes on the reference platform *)

(** ** Strings and UTF-8 *)

Lemma append_cons (c : ascii) (s r : string) : String c s ++ r = String c (s ++ r).
Proof. reflexivity. Qed.

Lemma parse_string_body_escape (c : ascii) (tl : string) :
  Reference.parse_string_body (Reference.escape c ++ tl)
  = match Reference.parse_string_body tl with
    | Some (str, rest) => Some (String c str, rest)
    | None => None
    end.
Proof. destruct c as [[] [] [] [] [] [] [] []]; reflexivity. Qed.

Lemma parse_string_body_escape_all (s rest : string) :
  Reference.parse_string_body (Reference.escape_all s ++ String Reference.dquote rest)
  = Some (s, rest).
Proof.
  induction s as [|c tl IH]; [reflexivity|].
  cbn [Reference.escape_all]. rewrite string_append_assoc, parse_string_body_escape, IH.
  reflexivity.
Qed.

Lemma utf8_decode_encode_step (c : ascii) (tl : string) :
  Reference.utf8_decode (Reference.utf8_encode (String c tl))
  = String c (Reference.utf8_decode (Reference.utf8_encode tl)).
Proof. destruct c as [[] [] [] [] [] [] [] []]; reflexivity. Qed.

Lemma utf8_decode_encode (s : string) :
  Reference.utf8_decode (Reference.utf8_encode s) = s.
Proof.
  induction s as [|c tl IH]; [reflexivity|].
  now rewrite utf8_decode_encode_step, IH.
Qed.

Lemma utf8_encode_first (c : ascii) (tl : string) :
  exists b l, Reference.utf8_encode (String c tl) = b :: l /\
              (Byte.to_N b =? 239)%N = false.
Proof.
  destruct c as [[] [] [] [] [] [] [] []];
    (eexists; eexists; split; [reflexivity | reflexivity]).
Qed.

Lemma strip_bom_encode (s : string) :
  Reference.strip_bom (Reference.utf8_encode s) = Reference.utf8_encode s.
Proof.
  destruct s as [|c tl]; [reflexivity|].
  destruct (utf8_encode_first c tl) as (b & l & -> & Hb).
  destruct l as [|b2 [|b3 rest]]; try reflexivity.
  unfold Reference.strip_bom. now rewrite Hb.
Qed.

Lemma length_append (a b : string) :
  String.length (a ++ b) = String.length a + String.length b.
Proof. induction a as [|c a IH]; cbn; [reflexivity | now rewrite IH]. Qed.

(** ** Numbers *)

Lemma digit_value_digit_char (d : N) :
  (d < 10)%N -> Reference.digit_value (Reference.digit_char d) = Some d.
Proof.
  intro H. unfold Reference.digit_value, Reference.digit_char, code.
  rewrite N_ascii_embedding by lia.
  replace ((48 <=? 48 + d)%N) with true by (symmetry; apply N.leb_le; lia).
  replace ((48 + d <=? 57)%N) with true by (symmetry; apply N.leb_le; lia).
  cbn [andb]. f_equal. lia.
Qed.

Lemma ends_value_cases (rest : string) :
  ends_value rest = true ->
  rest = "" \/ exists tl, rest = String "," tl \/ rest = String "]" tl \/ rest = String "}" tl.
Proof.
  destruct rest as [|c tl]; [now left|]. cbn [ends_value]. intro H. right. exists tl.
  apply orb_true_iff in H as [H|H]; [apply orb_true_iff in H as [H|H]|];
    apply Ascii.eqb_eq in H; subst c; auto.
Qed.

Lemma read_digits_stop (rest : string) (acc : N) :
  ends_value rest = true -> Reference.read_digits rest acc = (acc, rest).
Proof.
  intro H. destruct (ends_value_cases rest H) as [->|(tl & [->|[->| ->]])]; reflexivity.
Qed.

Lemma starts_fraction_or_exponent_stop (rest : string) :
  ends_value rest = true -> Reference.starts_fraction_or_exponent rest = false.
Proof.
  intro H. destruct (ends_value_cases rest H) as [->|(tl & [->|[->| ->]])]; reflexivity.
Qed.

Lemma digits_zero (f : nat) (acc : string) : Reference.digits f 0 acc = acc.
Proof. destruct f; reflexivity. Qed.

Lemma read_digits_digit (d : N) (tl : string) (a : N) :
  (d < 10)%N ->
  Reference.read_digits (String (Reference.digit_char d) tl) a
  = Reference.read_digits tl (a * 10 + d)%N.
Proof.
  intro H. cbn [Reference.read_digits]. now rewrite digit_value_digit_char.
Qed.

Lemma digits_read (f : nat) :
  forall (n : N) (acc : string),
    (0 < n)%N -> (n < 2 ^ N.of_nat f)%N ->
    exists c tl d,
      Reference.digits f n acc = String c tl /\
      Reference.digit_value c = Some d /\ d <> 0%N /\
      forall rest,
        Reference.read_digits (tl ++ rest) d = Reference.read_digits (acc ++ rest) n.
Proof.
  induction f as [|f IH]; intros n acc Hpos Hlt.
  - cbn in Hlt. lia.
  - cbn [Reference.digits].
    replace ((n =? 0)%N) with false by (symmetry; apply N.eqb_neq; lia).
    assert (Hd : (n mod 10 < 10)%N) by (apply N.mod_lt; lia).
    destruct (N.eq_dec (n / 10) 0) as [Hz|Hnz].
    + rewrite Hz, digits_zero.
      assert (Hn : (n mod 10 = n)%N).
      { apply N.mod_small. apply N.div_small_iff in Hz; lia. }
      exists (Reference.digit_char (n mod 10)), acc, n. rewrite Hn in *.
      split; [reflexivity|]. split; [now apply digit_value_digit_char|].
      split; [lia | reflexivity].
    + assert (Hlt' : (n / 10 < 2 ^ N.of_nat f)%N).
      { apply N.Div0.div_lt_upper_bound.
        rewrite Nat2N.inj_succ, N.pow_succ_r' in Hlt. lia. }
      assert (Hpos' : (0 < n / 10)%N) by (apply N.neq_0_lt_0; exact Hnz).
      destruct (IH (n / 10)%N (String (Reference.digit_char (n mod 10)) acc)
                  Hpos' Hlt') as (c & tl & d & Heq & Hc & Hd0 & Hread).
      exists c, tl, d. repeat split; try assumption.
      intro rest. rewrite Hread, append_cons, read_digits_digit by exact Hd.
      f_equal. rewrite (N.div_mod n 10) at 3 by lia. lia.
Qed.

Lemma natural_first (n : N) :
  exists c tl d,
    Reference.natural_to_string n = String c tl /\
    Reference.digit_value c = Some d.
Proof.
  unfold Reference.natural_to_string. destruct (N.eqb_spec n 0) as [->|Hn].
  - exists "0"%char, "", 0%N. split; reflexivity.
  - destruct (@digits_read (N.to_nat (N.size n)) n "" (proj1 (N.neq_0_lt_0 n) Hn))
      as (c & tl & d & Heq & Hc & _).
    + rewrite N2Nat.id. apply N.size_gt.
    + eauto.
Qed.

Lemma parse_natural_text (n : N) (rest : string) :
  ends_value rest = true ->
  Reference.parse_natural (Reference.natural_to_string n ++ rest) = Some (n, rest).
Proof.
  intro Hrest. unfold Reference.natural_to_string.
  destruct (N.eqb_spec n 0) as [->|Hn].
  - cbn. now rewrite starts_fraction_or_exponent_stop.
  - destruct (@digits_read (N.to_nat (N.size n)) n "" (proj1 (N.neq_0_lt_0 n) Hn))
      as (c & tl & d & Heq & Hc & Hd0 & Hread).
    + rewrite N2Nat.id. apply N.size_gt.
    + rewrite Heq, append_cons. cbn [Reference.parse_natural]. rewrite Hc.
      destruct d as [|p]; [contradiction|].
      rewrite Hread. cbn [append]. rewrite read_digits_stop by exact Hrest.
      now rewrite starts_fraction_or_exponent_stop.
Qed.

Lemma parse_value_digit (f : nat) (c : ascii) (tl : string) (d : N) :
  Reference.digit_value c = Some d ->
  Reference.parse_value (S f) (String c tl)
  = match Reference.parse_natural (String c tl) with
    | Some (n, rest) => Some (VNum (Z.of_N n), rest)
    | None => None
    end.
Proof.
  destruct c as [[] [] [] [] [] [] [] []]; intro H;
    try discriminate H; reflexivity.
Qed.

Lemma digit_starts_value (c : ascii) (d : N) :
  Reference.digit_value c = Some d ->
  Reference.is_json_space c = false /\ Ascii.eqb c "]" = false.
Proof.
  destruct c as [[] [] [] [] [] [] [] []]; intro H;
    try discriminate H; split; reflexivity.
Qed.

Lemma parse_value_number (f : nat) (n : Z) (rest : string) :
  ends_value rest = true ->
  Reference.parse_value (S f) (Reference.number_to_string n ++ rest)
  = Some (VNum n, rest).
Proof.
  intro Hrest. unfold Reference.number_to_string. destruct (Z.ltb_spec n 0) as [Hneg|Hpos].
  - rewrite append_cons.
    change (Reference.parse_value (S f)
              (String "-" (Reference.natural_to_string (Z.to_N (- n)) ++ rest)))
      with (match Reference.parse_natural
                    (Reference.natural_to_string (Z.to_N (- n)) ++ rest) with
            | Some (m, r) => Some (VNum (- Z.of_N m), r)
            | None => None
            end).
    rewrite parse_natural_text by exact Hrest.
    now rewrite Z2N.id, Z.opp_involutive by lia.
  - destruct (natural_first (Z.to_N n)) as (c & tl & d & Heq & Hc).
    pose proof (parse_natural_text (Z.to_N n) rest Hrest) as Hparse.
    rewrite Heq in *. rewrite append_cons in *.
    rewrite (@parse_value_digit f c _ d Hc), Hparse. now rewrite Z2N.id by lia.
Qed.

Lemma number_first (n : Z) :
  exists c tl,
    Reference.number_to_string n = String c tl /\
    Reference.is_json_space c = false /\ Ascii.eqb c "]" = false.
Proof.
  unfold Reference.number_to_string. destruct (n <? 0)%Z.
  - eexists _, _. repeat split.
  - destruct (natural_first (Z.to_N n)) as (c & tl & d & -> & Hc).
    exists c, tl. split; [reflexivity|]. exact (@digit_starts_value c d Hc).
Qed.

(** ** Tokens *)

Lemma eat_token (c : ascii) (tl : string) :
  Reference.is_json_space c = false -> Reference.eat c (String c tl) = Some tl.
Proof.
  intro H. unfold Reference.eat. cbn [Reference.skip_ws]. now rewrite H, Ascii.eqb_refl.
Qed.

Lemma eat_other (c c' : ascii) (tl : string) :
  Reference.is_json_space c' = false -> Ascii.eqb c' c = false ->
  Reference.eat c (String c' tl) = None.
Proof.
  intros H E. unfold Reference.eat. cbn [Reference.skip_ws]. now rewrite H, E.
Qed.

Lemma text_first (v : value) :
  json_ok v = true ->
  exists c tl,
    text v = String c tl /\
    Reference.is_json_space c = false /\ Ascii.eqb c "]" = false.
Proof.
  destruct v as [| |b|n|s|elems|fields|c fields]; cbn [json_ok text]; intro H;
    try discriminate H.
  - eexists _, _. repeat split.
  - destruct b; eexists _, _; repeat split.
  - apply number_first.
  - eexists _, _. repeat split.
  - eexists _, _. repeat split.
  - eexists _, _. repeat split.
Qed.

Lemma key_quote (k rest : string) :
  Reference.key (Reference.quote k ++ rest) = Some (k, rest).
Proof.
  unfold Reference.key, Reference.quote. rewrite append_cons, string_append_assoc, append_cons.
  rewrite eat_token by reflexivity. cbn [append].
  apply parse_string_body_escape_all.
Qed.

Lemma elements_text (item : string -> option (value * string)) (elems : list value) :
  forall n rest,
    elems <> [] -> length elems <= n ->
    (forall x r, In x elems -> ends_value r = true -> item (text x ++ r) = Some (x, r)) ->
    Reference.elements item n
      (Reference.concat_with "," (map text elems) ++ String "]" rest)
    = Some (elems, rest).
Proof.
  induction elems as [|x tl IH]; intros n rest Hne Hlen Hitem; [contradiction|].
  destruct n as [|n]; [cbn in Hlen; lia|].
  destruct tl as [|y tl'].
  - cbn [map Reference.concat_with Reference.elements].
    rewrite (Hitem x (String "]" rest) (or_introl eq_refl) eq_refl).
    reflexivity.
  - change (Reference.concat_with "," (map text (x :: y :: tl')))
      with (text x ++ "," ++ Reference.concat_with "," (map text (y :: tl'))).
    rewrite string_append_assoc, string_append_assoc. cbn [append].
    cbn [Reference.elements].
    rewrite Hitem; [|now left|reflexivity].
    rewrite eat_token by reflexivity.
    rewrite IH; [reflexivity | discriminate | cbn in Hlen |- *; lia |].
    intros x' r Hin. apply Hitem. now right.
Qed.

Lemma members_text (item : string -> option (value * string)) (fields : props) :
  forall n rest,
    fields <> [] -> length fields <= n ->
    (forall kv r, In kv fields -> ends_value r = true ->
                  item (text (snd kv) ++ r) = Some (snd kv, r)) ->
    Reference.members item n
      (Reference.concat_with ","
         (map (fun kv => Reference.quote (fst kv) ++ ":" ++ text (snd kv)) fields)
       ++ String "}" rest)
    = Some (fields, rest).
Proof.
  induction fields as [|[k v] tl IH]; intros n rest Hne Hlen Hitem; [contradiction|].
  destruct n as [|n]; [cbn in Hlen; lia|].
  destruct tl as [|kv' tl'].
  - cbn [map Reference.concat_with Reference.members fst snd].
    rewrite string_append_assoc, key_quote. cbn [append].
    rewrite eat_token by reflexivity.
    rewrite (Hitem (k, v) (String "}" rest) (or_introl eq_refl) eq_refl : item (text v ++ _) = _).
    reflexivity.
  - change (Reference.concat_with ","
              (map (fun kv => Reference.quote (fst kv) ++ ":" ++ text (snd kv))
                   ((k, v) :: kv' :: tl')))
      with ((Reference.quote k ++ ":" ++ text v) ++ "," ++
            Reference.concat_with ","
              (map (fun kv => Reference.quote (fst kv) ++ ":" ++ text (snd kv))
                   (kv' :: tl'))).
    rewrite !string_append_assoc. cbn [append].
    cbn [Reference.members]. rewrite key_quote.
    rewrite eat_token by reflexivity.
    rewrite (fun r H => Hitem (k, v) r (or_introl eq_refl) H : item (text v ++ r) = _)
      by reflexivity.
    rewrite eat_token by reflexivity.
    rewrite IH; [reflexivity | discriminate | cbn in Hlen |- *; lia |].
    intros kv r Hin. apply Hitem. now right.
Qed.

(** ** Objects with distinct keys *)

Lemma distinct_cons (k : string) (l : list string) :
  distinct (k :: l) = true -> ~ In k l /\ distinct l = true.
Proof.
  cbn [distinct]. intro H. apply andb_true_iff in H as [Hk Hl]. split; [|exact Hl].
  intro Hin. apply negb_true_iff in Hk.
  assert (Ht : existsb (String.eqb k) l = true).
  { apply existsb_exists. exists k. split; [exact Hin | apply String.eqb_refl]. }
  congruence.
Qed.


Lemma keys_app (a b : props) : keys (a ++ b)%list = (keys a ++ keys b)%list.
Proof. unfold keys. apply map_app. Qed.

Lemma object_of_fold (l : props) :
  forall acc,
    distinct (keys l) = true ->
    (forall k, In k (keys l) -> ~ In k (keys acc)) ->
    fold_left (fun o '(k, v) => set_prop o k v) l acc = (acc ++ l)%list.
Proof.
  induction l as [|[k v] tl IH]; intros acc Hd Hfresh; cbn [fold_left].
  - now rewrite app_nil_r.
  - cbn [keys map fst] in Hd. apply distinct_cons in Hd as [Hk Hd].
    rewrite set_prop_fresh by (apply Hfresh; now left).
    rewrite IH; [now rewrite <- app_assoc | exact Hd |].
    intros k' Hin. rewrite keys_app. cbn [keys map fst]. intro H.
    apply in_app_or in H as [H|[H|[]]].
    + apply (Hfresh k'); [now right | exact H].
    + subst k'. now apply Hk.
Qed.

Lemma object_of_distinct (l : props) :
  distinct (keys l) = true -> Reference.object_of l = l.
Proof.
  intro H. unfold Reference.object_of. rewrite object_of_fold; auto.
Qed.

(** ** Depth and length *)

Lemma fold_max_le {A} (g : A -> nat) (l : list A) (m : nat) :
  (forall x, In x l -> g x <= m) ->
  fold_right (fun x d => Nat.max (g x) d) 0 l <= m.
Proof.
  induction l as [|x tl IH]; intro H; cbn [fold_right]; [lia|].
  apply Nat.max_lub; [apply H; now left | apply IH; intros; apply H; now right].
Qed.

Lemma fold_max_ge {A} (g : A -> nat) (l : list A) (x : A) :
  In x l -> g x <= fold_right (fun x d => Nat.max (g x) d) 0 l.
Proof.
  induction l as [|y tl IH]; intros []; cbn [fold_right]; [subst; lia|].
  specialize (IH H). lia.
Qed.

Lemma concat_with_length (sep : string) (l : list string) (x : string) :
  In x l -> String.length x <= String.length (Reference.concat_with sep l).
Proof.
  induction l as [|y tl IH]; intros []; cbn [Reference.concat_with].
  - subst y. destruct tl; [lia|]. rewrite length_append. lia.
  - destruct tl as [|z tl']; [contradiction|]. rewrite !length_append.
    specialize (IH H). lia.
Qed.

Lemma concat_with_count (sep : string) (l : list string) :
  (forall x, In x l -> 1 <= String.length x) ->
  length l <= String.length (Reference.concat_with sep l).
Proof.
  induction l as [|y tl IH]; intro H; [cbn; lia|].
  cbn [Reference.concat_with length]. destruct tl as [|z tl'].
  - specialize (H y (or_introl eq_refl)). cbn. lia.
  - rewrite !length_append. specialize (H y (or_introl eq_refl)) as Hy.
    assert (Htl : length (z :: tl') <= String.length (Reference.concat_with sep (z :: tl'))).
    { apply IH. intros x Hx. apply H. now right. }
    lia.
Qed.

Lemma text_nonempty (v : value) : json_ok v = true -> 1 <= String.length (text v).
Proof.
  intro H. destruct (text_first v H) as (c & tl & -> & _). cbn. lia.
Qed.

Lemma depth_text (n : nat) :
  forall v, Reference.depth v <= n -> json_ok v = true ->
            Reference.depth v <= String.length (text v).
Proof.
  induction n as [|n IH]; intros v Hn Hok.
  - destruct v; cbn in Hn; lia.
  - destruct v as [| |b|z|s|elems|fields|c fields];
      try (pose proof (text_nonempty _ Hok); cbn [Reference.depth]; lia).
    + cbn [Reference.depth text json_ok] in *. rewrite !length_append. cbn [String.length].
      enough (fold_right (fun x d => Nat.max (Reference.depth x) d) 0 elems
              <= String.length (Reference.concat_with "," (map text elems))) by lia.
      apply fold_max_le. intros x Hx.
      assert (Hokx : json_ok x = true) by (eapply forallb_forall in Hok; eauto).
      transitivity (String.length (text x)).
      * apply IH; [|exact Hokx].
        pose proof (fold_max_ge Reference.depth elems x Hx). lia.
      * apply concat_with_length. now apply in_map.
    + cbn [Reference.depth text json_ok] in *. rewrite !length_append. cbn [String.length].
      apply andb_true_iff in Hok as [Hok _].
      enough (fold_right (fun kv d => Nat.max (Reference.depth (snd kv)) d) 0 fields
              <= String.length
                   (Reference.concat_with ","
                      (map (fun kv => Reference.quote (fst kv) ++ ":" ++ text (snd kv))
                           fields))) by lia.
      apply (fold_max_le (fun kv => Reference.depth (snd kv))). intros kv Hkv.
      assert (Hokx : json_ok (snd kv) = true)
        by (eapply forallb_forall in Hok; eauto).
      transitivity (String.length (Reference.quote (fst kv) ++ ":" ++ text (snd kv))).
      * rewrite !length_append.
        enough (Reference.depth (snd kv) <= String.length (text (snd kv))) by lia.
        apply IH; [|exact Hokx].
        pose proof (fold_max_ge (fun kv => Reference.depth (snd kv)) fields kv Hkv). lia.
      * apply concat_with_length.
        apply (in_map (fun kv => Reference.quote (fst kv) ++ ":" ++ text (snd kv))).
        exact Hkv.
    + discriminate Hok.
Qed.

(** ** [JSON.parse] reads what [JSON.stringify] writes *)

Lemma parse_value_text (f : nat) :
  forall v rest,
    json_ok v = true -> Reference.depth v <= f -> ends_value rest = true ->
    Reference.parse_value f (text v ++ rest) = Some (v, rest).
Proof.
  induction f as [|f IH]; intros v rest Hok Hdepth Hrest.
  - destruct v; cbn in Hdepth; lia.
  - destruct v as [| |b|z|s|elems|fields|c fields]; try discriminate Hok.
    + destruct rest; reflexivity.
    + destruct b, rest; reflexivity.
    + now apply parse_value_number.
    + cbn [text]. unfold Reference.quote. rewrite append_cons, string_append_assoc, append_cons.
      cbn [append].
      change (Reference.parse_value (S f)
                (String Reference.dquote
                   (Reference.escape_all s ++ String Reference.dquote rest)))
        with (match Reference.parse_string_body
                      (Reference.escape_all s ++ String Reference.dquote rest) with
              | Some (str, r) => Some (VStr str, r)
              | None => None
              end).
      now rewrite parse_string_body_escape_all.
    + cbn [json_ok Reference.depth] in *.
      change (text (VArr elems) ++ rest)
        with (String "[" ((Reference.concat_with "," (map text elems) ++ "]") ++ rest)).
      rewrite string_append_assoc.
      change ("]" ++ rest) with (String "]" rest).
      set (body := Reference.concat_with "," (map text elems) ++ String "]" rest).
      change (Reference.parse_value (S f) (String "[" body))
        with (match Reference.eat "]" body with
              | Some r => Some (VArr [], r)
              | None =>
                  match Reference.elements (Reference.parse_value f)
                          (String.length body) body with
                  | Some (vs, r) => Some (VArr vs, r)
                  | None => None
                  end
              end).
      destruct elems as [|x tl]; [reflexivity|].
      assert (Hall : forall y, In y (x :: tl) -> json_ok y = true)
        by (intros y Hy; eapply forallb_forall in Hok; eauto).
      assert (Heat : Reference.eat "]" body = None).
      { subst body. destruct (text_first x (Hall x (or_introl eq_refl)))
          as (c & r & Hx & Hsp & Hc).
        cbn [map Reference.concat_with]. rewrite Hx.
        destruct (map text tl); cbn [append]; now apply eat_other. }
      rewrite Heat. subst body. rewrite elements_text; [reflexivity | discriminate | |].
      * rewrite length_append.
        pose proof (@concat_with_count "," (map text (x :: tl))) as Hc.
        rewrite length_map in Hc. 
        assert (length (x :: tl)
                <= String.length (Reference.concat_with "," (map text (x :: tl)))).
        { apply Hc. intros t Ht. apply in_map_iff in Ht as (y & <- & Hy).
          apply text_nonempty. now apply Hall. }
        lia.
      * intros y r Hy Hr. apply IH; [now apply Hall | | exact Hr].
        pose proof (fold_max_ge Reference.depth (x :: tl) y Hy). lia.
    + cbn [json_ok Reference.depth] in *.
      apply andb_true_iff in Hok as [Hok Hdistinct].
      change (text (VObj fields) ++ rest)
        with (String "{"
                ((Reference.concat_with ","
                    (map (fun kv => Reference.quote (fst kv) ++ ":" ++ text (snd kv))
                         fields) ++ "}") ++ rest)).
      rewrite string_append_assoc.
      change ("}" ++ rest) with (String "}" rest).
      set (body := Reference.concat_with ","
                     (map (fun kv => Reference.quote (fst kv) ++ ":" ++ text (snd kv))
                          fields) ++ String "}" rest).
      change (Reference.parse_value (S f) (String "{" body))
        with (match Reference.eat "}" body with
              | Some r => Some (VObj [], r)
              | None =>
                  match Reference.members (Reference.parse_value f)
                          (String.length body) body with
                  | Some (kvs, r) => Some (VObj (Reference.object_of kvs), r)
                  | None => None
                  end
              end).
      destruct fields as [|[k x] tl]; [reflexivity|].
      assert (Hall : forall kv, In kv ((k, x) :: tl) -> json_ok (snd kv) = true)
        by (intros kv Hkv; eapply forallb_forall in Hok; eauto).
      assert (Heat : Reference.eat "}" body = None).
      { subst body. cbn [map Reference.concat_with fst snd]. unfold Reference.quote.
        destruct (map (fun kv => String Reference.dquote
                                   (Reference.escape_all (fst kv)
                                    ++ String Reference.dquote "")
                                 ++ ":" ++ text (snd kv)) tl);
          cbn [append]; now apply eat_other. }
      rewrite Heat. subst body.
      rewrite members_text; [now rewrite object_of_distinct | discriminate | |].
      * rewrite length_append.
        pose proof (@concat_with_count ","
                      (map (fun kv => Reference.quote (fst kv) ++ ":" ++ text (snd kv))
                           ((k, x) :: tl))) as Hc.
        rewrite length_map in Hc.
        assert (length ((k, x) :: tl)
                <= String.length
                     (Reference.concat_with ","
                        (map (fun kv => Reference.quote (fst kv) ++ ":" ++ text (snd kv))
                             ((k, x) :: tl)))).
        { apply Hc. intros t Ht. apply in_map_iff in Ht as (kv & <- & Hkv).
          unfold Reference.quote. cbn. lia. }
        lia.
      * intros kv r Hkv Hr. apply IH; [now apply Hall | | exact Hr].
        pose proof (fold_max_ge (fun kv => Reference.depth (snd kv)) _ kv Hkv). lia.
Qed.

Lemma JSON_parse_text (v : value) :
  json_ok v = true -> Reference.JSON_parse (text v) = Ok v.
Proof.
  intro Hok. unfold Reference.JSON_parse.
  rewrite <- (string_append_nil (text v)) at 2.
  rewrite parse_value_text; [reflexivity | exact Hok | | reflexivity].
  pose proof (@depth_text (Reference.depth v) v (le_n _) Hok). lia.
Qed.

(** ** [JSON.stringify] writes the text *)

Lemma stringify_text (f : nat) :
  forall v, json_ok v = true -> Reference.depth v <= f ->
            Reference.stringify f v = Some (text v).
Proof.
  induction f as [|f IH]; intros v Hok Hdepth.
  - destruct v; cbn in Hdepth; lia.
  - destruct v as [| |b|z|s|elems|fields|c fields]; try discriminate Hok;
      cbn [Reference.stringify text]; try reflexivity.
    + now destruct b.
    + cbn [json_ok Reference.depth] in *.
      assert (Hmap : map (fun each => match Reference.stringify f each with
                                      | Some s => s
                                      | None => "null"
                                      end) elems = map text elems).
      { apply map_ext_in. intros x Hx. rewrite IH; [reflexivity | |].
        - eapply forallb_forall in Hok; eauto.
        - pose proof (fold_max_ge Reference.depth elems x Hx). lia. }
      now rewrite Hmap.
    + cbn [json_ok Reference.depth] in *. apply andb_true_iff in Hok as [Hok _].
      enough (Hmap : flat_map (fun kv => match Reference.stringify f (snd kv) with
                                         | Some s => [Reference.quote (fst kv) ++ ":" ++ s]
                                         | None => []
                                         end) fields
                     = map (fun kv => Reference.quote (fst kv) ++ ":" ++ text (snd kv))
                           fields) by now rewrite Hmap.
      assert (Hall : forall kv, In kv fields ->
                                Reference.stringify f (snd kv) = Some (text (snd kv))).
      { intros kv Hkv. apply IH.
        - eapply forallb_forall in Hok; eauto.
        - pose proof (fold_max_ge (fun kv => Reference.depth (snd kv)) fields kv Hkv).
          lia. }
      clear - Hall. induction fields as [|kv tl IHf]; [reflexivity|].
      cbn [flat_map map]. rewrite (Hall kv (or_introl eq_refl)). cbn [app].
      f_equal. apply IHf. intros kv' Hkv'. apply Hall. now right.
Qed.

Lemma JSON_stringify_text (raw : props) :
  json_ok (VObj raw) = true -> Reference.JSON_stringify raw = Ok (text (VObj raw)).
Proof.
  intro Hok. unfold Reference.JSON_stringify. rewrite stringify_text; [reflexivity | exact Hok | lia].
Qed.

(** ** The round trip through bytes *)


Lemma utf8_round_trip (s : string) :
  bytesToString Reference.platform (Reference.utf8_encode s) = Ok s.
Proof.
  unfold bytesToString. cbn.
  now rewrite strip_bom_encode, utf8_decode_encode.
Qed.




(** * The two layers, and [clone] as the runtime runs it *)

Lemma runtime_put_agrees (o : Runtime.object) (c k : string) (v : value) :
  Runtime.proto o = Runtime.ClassProto c ->
  k <> "__proto__" ->
  Runtime.put o k v
  = match put (Runtime.fields o) k v with
    | Ok fs => Ok {| Runtime.proto := Runtime.proto o; Runtime.fields := fs |}
    | Throw e => Throw e
    end.
Proof.
  intros Hproto Hk. unfold Runtime.put, put.
  destruct (has_own k (Runtime.fields o)); [reflexivity|].
  rewrite Hproto. cbn [Runtime.inherited]. unfold Runtime.class_slot.
  destruct (String.eqb k "type"); [reflexivity|].
  apply String.eqb_neq in Hk. now rewrite Hk.
Qed.

(** On an instance of a class and a raw value without the key [__proto__],
    the assignment of the runtime layer is the assignment of the first
    layer, the prototype unchanged. *)
Lemma runtime_assign_agrees (entries : props) :
  forall (o : Runtime.object) (c : string),
    Runtime.proto o = Runtime.ClassProto c ->
    get "__proto__" entries = None ->
    Runtime.Object_assign o entries
    = (fst (Object_assign (Runtime.fields o) entries),
       {| Runtime.proto := Runtime.proto o;
          Runtime.fields := snd (Object_assign (Runtime.fields o) entries) |}).
Proof.
  induction entries as [|[k v] rest IH]; intros o c Hproto Hnone;
    cbn [Runtime.Object_assign Object_assign].
  - cbn [fst snd]. now destruct o.
  - cbn [get] in Hnone. destruct (String.eqb "__proto__" k) eqn:E; [discriminate Hnone|].
    apply String.eqb_neq in E.
    rewrite (@runtime_put_agrees o c k v Hproto) by congruence.
    destruct (put (Runtime.fields o) k v) as [fs|e].
    + rewrite (IH _ c); [reflexivity | exact Hproto | exact Hnone].
    + cbn [fst snd]. now destruct o.
Qed.

(** For classes that override [validate] only, and a raw value without
    the key [__proto__], [fromRaw] of the runtime layer is [fromRaw] of the
    first layer. *)
Lemma runtime_fromRaw_agrees (validate_of : string -> props -> result bool)
      (raw : value) (this : Serializable) :
  get "__proto__" (own_entries raw) = None ->
  Runtime.fromRaw (Runtime.plain_classes validate_of) raw (Runtime.of_Serializable this)
  = (fst (fromRaw validate_of raw this),
     Runtime.of_Serializable (snd (fromRaw validate_of raw this))).
Proof.
  intro Hnone. unfold Runtime.fromRaw, fromRaw.
  rewrite (@runtime_assign_agrees (own_entries raw) (Runtime.of_Serializable this)
             (cls this) eq_refl Hnone).
  cbn [Runtime.of_Serializable Runtime.instance_of Runtime.fields Runtime.proto].
  destruct (Object_assign (own this) (own_entries raw)) as [[[]|e] o]; cbn [fst snd];
    [|reflexivity].
  unfold Runtime.call_validate, Runtime.lookup_method, validate.
  cbn [Runtime.fields Runtime.proto cls own Runtime.plain_classes
       Runtime.validate_method Runtime.of_Serializable Runtime.instance_of].
  destruct (has_own "validate" o); reflexivity.
Qed.

Lemma runtime_toRaw_plain (classes : string -> Runtime.class_def) (fields : props) :
  forall raw,
    NoDup (keys (raw ++ fields)%list) ->
    Forall (fun kv => is_private (fst kv) = false) fields ->
    Forall (fun kv => holds_entity (snd kv) = false) fields ->
    fold_left (toRaw_turn classes []) fields (Ok raw) = Ok (raw ++ fields)%list.
Proof.
  induction fields as [|[k v] tl IH]; intros raw Hnd Hpub Hplain; cbn [fold_left].
  - now rewrite app_nil_r.
  - inversion Hpub as [|? ? Hk Hpub']; subst. inversion Hplain as [|? ? Hv Hplain']; subst.
    cbn [fst snd] in Hk, Hv.
    unfold toRaw_turn at 2. cbn [bind fst snd includes existsb]. rewrite Hk.
    unfold includes. cbn [existsb orb].
    rewrite (convert_without_entity classes v Hv). cbn [bind].
    assert (Hfresh : ~ In k (keys raw)).
    { unfold keys in *. rewrite map_app in Hnd. cbn [map fst] in Hnd.
      apply NoDup_remove_2 in Hnd. intro Hin. apply Hnd. apply in_or_app. now left. }
    rewrite (set_prop_fresh _ _ v Hfresh).
    rewrite IH; [now rewrite <- app_assoc | now rewrite <- app_assoc | exact Hpub'
                 | exact Hplain'].
Qed.

Lemma runtime_assign_fresh (entries : props) :
  forall (o : Runtime.object) (c : string),
    Runtime.proto o = Runtime.ClassProto c ->
    NoDup (keys (Runtime.fields o ++ entries)%list) ->
    get "type" entries = None ->
    get "__proto__" entries = None ->
    Runtime.Object_assign o entries
    = (Ok tt, {| Runtime.proto := Runtime.proto o;
                 Runtime.fields := (Runtime.fields o ++ entries)%list |}).
Proof.
  induction entries as [|[k v] rest IH]; intros o c Hproto Hnd Htype Hnone;
    cbn [Runtime.Object_assign].
  - rewrite app_nil_r. now destruct o.
  - cbn [get] in Htype, Hnone.
    destruct (String.eqb "type" k) eqn:Et; [discriminate Htype|].
    destruct (String.eqb "__proto__" k) eqn:Ep; [discriminate Hnone|].
    assert (Hfresh : ~ In k (keys (Runtime.fields o))).
    { unfold keys in *. rewrite map_app in Hnd. cbn [map fst] in Hnd.
      apply NoDup_remove_2 in Hnd. intro Hin. apply Hnd. apply in_or_app. now left. }
    unfold Runtime.put.
    rewrite (proj2 (has_own_get k (Runtime.fields o))
               (proj2 (get_None_iff _ _) Hfresh)).
    rewrite Hproto. cbn [Runtime.inherited]. unfold Runtime.class_slot.
    rewrite String.eqb_sym, Et, String.eqb_sym, Ep.
    rewrite (set_prop_fresh _ _ v Hfresh).
    rewrite (IH _ c); cbn [Runtime.proto Runtime.fields];
      [now rewrite <- app_assoc | reflexivity | now rewrite <- app_assoc
       | exact Htype | exact Hnone].
Qed.

Lemma public_key_absent (fields : props) (k : string) :
  Forall (fun kv => is_private (fst kv) = false) fields ->
  is_private k = true -> get k fields = None.
Proof.
  intros Hpub Hk. apply get_None_iff. intro Hin.
  apply in_map_iff in Hin as ([k' v] & Heq & Hin). cbn [fst] in Heq. subst k'.
  rewrite Forall_forall in Hpub. specialize (Hpub _ Hin). cbn [fst] in Hpub. congruence.
Qed.

(** X23.  Cloning an entity of plain public data gives an equal entity.
    For an instance of a class that keeps the base [toRaw] and [fromRaw]
    and whose constructor sets no property, with no own property named
    [constructor] or [toRaw], distinct public keys other than [type], no
    entity among the values or their array elements, and [validate()]
    true, [clone()] returns an instance with the same prototype and the
    same properties. *)
Theorem clone_of_plain_entity
  (classes : string -> Runtime.class_def) (construct : string -> props)
  (c : string) (this : Runtime.object) :
  Runtime.proto this = Runtime.ClassProto c ->
  Runtime.toRaw_override (classes c) = None ->
  Runtime.fromRaw_override (classes c) = None ->
  has_own "constructor" (Runtime.fields this) = false ->
  has_own "toRaw" (Runtime.fields this) = false ->
  NoDup (keys (Runtime.fields this)) ->
  Forall (fun kv => is_private (fst kv) = false) (Runtime.fields this) ->
  Forall (fun kv => holds_entity (snd kv) = false) (Runtime.fields this) ->
  get "type" (Runtime.fields this) = None ->
  construct c = [] ->
  Runtime.call_validate classes this = Ok true ->
  Runtime.clone classes construct this = Ok this.
Proof.
  intros Hproto HtoRaw HfromRaw Hctor Hown Hnd Hpub Hplain Htype Hnew Hvalid.
  unfold Runtime.clone, Runtime.lookup_method. rewrite Hctor, Hproto.
  unfold Runtime.call_toRaw, Runtime.lookup_method. rewrite Hown, Hproto, HtoRaw.
  rewrite runtime_toRaw_unfold, (@runtime_toRaw_plain classes _ [] Hnd Hpub Hplain).
  cbn [app bind].
  unfold Runtime.call_fromRaw, Runtime.lookup_method. rewrite Hnew.
  cbn [Runtime.instance_of Runtime.fields Runtime.proto has_own get].
  rewrite HfromRaw. unfold Runtime.fromRaw. cbn [own_entries].
  rewrite (@runtime_assign_fresh (Runtime.fields this) (Runtime.instance_of c []) c
             eq_refl Hnd Htype
             (@public_key_absent (Runtime.fields this) "__proto__" Hpub eq_refl)).
  cbn [Runtime.instance_of Runtime.proto Runtime.fields app].
  replace {| Runtime.proto := Runtime.ClassProto c;
             Runtime.fields := Runtime.fields this |} with this
    by (destruct this; cbn in *; congruence).
  now rewrite Hvalid.
Qed.

Lemma clone_of_plain_entity_witness :
  Runtime.clone example_classes no_initialisers (Runtime.of_Serializable profile_example)
  = Ok (Runtime.of_Serializable profile_example).
Proof.
  refine (@clone_of_plain_entity example_classes no_initialisers "account"
            (Runtime.of_Serializable profile_example)
            eq_refl eq_refl eq_refl eq_refl eq_refl _ _ _ eq_refl eq_refl eq_refl).
  - repeat constructor; cbn; intuition discriminate.
  - repeat constructor.
  - repeat constructor.
Defined.

(** * [marshal], [unmarshal] and the string codecs on the reference platform *)

(** X27.  [unmarshal] reads back what [marshal] writes: for a mapping that
    JSON text carries unchanged, [marshal] returns its text and [unmarshal]
    of that text returns the mapping. *)
Theorem unmarshal_marshal (obj : props) :
  json_ok (VObj obj) = true ->
  exists json,
    marshal Reference.platform obj = Ok json /\
    unmarshal Reference.platform json = Ok (VObj obj).
Proof.
  intro Hok. exists (text (VObj obj)). unfold marshal, unmarshal.
  cbn [JSON_stringify JSON_parse Reference.platform].
  now rewrite JSON_stringify_text, JSON_parse_text.
Qed.

Lemma unmarshal_marshal_witness :
  exists json,
    marshal Reference.platform
      [("id", VNum (-12)); ("tags", VArr [VStr "a b"; VNull; VBool true]);
       ("meta", VObj [("__proto__", VNum 0)])]
    = Ok json /\
    unmarshal Reference.platform json
    = Ok (VObj [("id", VNum (-12)); ("tags", VArr [VStr "a b"; VNull; VBool true]);
                ("meta", VObj [("__proto__", VNum 0)])]).
Proof.
  exact (@unmarshal_marshal
           [("id", VNum (-12)); ("tags", VArr [VStr "a b"; VNull; VBool true]);
            ("meta", VObj [("__proto__", VNum 0)])] eq_refl).
Defined.

(** X28.  [bytesToString] reads back what [stringToBytes] writes, for every
    string of the embedding: neither call throws, and the bytes decode to
    the string. *)
Theorem bytesToString_stringToBytes (s : string) :
  exists bytes,
    stringToBytes Reference.platform s = Ok bytes /\
    bytesToString Reference.platform bytes = Ok s.
Proof.
  exists (Reference.utf8_encode s). split; [reflexivity | apply utf8_round_trip].
Qed.

(** * [toRaw] in the two layers *)

Lemma toRaw_layers_fold (classes : string -> Runtime.class_def) (xs : list string)
      (fields : props) :
  (forall kv, In kv fields -> is_private (fst kv) = false ->
              Runtime.convert classes (snd kv) = Ok (raw_of (snd kv))) ->
  forall raw,
    fold_left (toRaw_turn classes xs) fields (Ok raw)
    = Ok (fold_left (toRaw_step xs) fields raw).
Proof.
  induction fields as [|[k v] tl IH]; intros Hall raw; cbn [fold_left]; [reflexivity|].
  assert (Hturn : toRaw_turn classes xs (Ok raw) (k, v) = Ok (toRaw_step xs raw (k, v))).
  { unfold toRaw_turn, toRaw_step. cbn [bind fst snd].
    destruct (is_private k) eqn:Hk; cbn [orb]; [reflexivity|].
    destruct (includes xs k); [reflexivity|].
    now rewrite (Hall (k, v) (or_introl eq_refl) Hk
                 : Runtime.convert classes v = Ok (raw_of v)). }
  rewrite Hturn. apply IH. intros kv Hin. apply Hall. now right.
Qed.

(** On entities in good order, for classes that do not override [toRaw],
    [toRaw] of the runtime layer returns, and returns [toRaw] of the first
    layer. *)
Lemma runtime_toRaw_agrees (classes : string -> Runtime.class_def) (n : nat) :
  (forall c, Runtime.toRaw_override (classes c) = None) ->
  forall this xs,
    Reference.depth this <= n -> in_order this = true ->
    Runtime.toRaw classes xs this = Ok (toRaw xs this).
Proof.
  intro Hbase. induction n as [|n IH]; intros this xs Hn Hok.
  - destruct this; cbn in Hn; lia.
  - destruct this as [| | | | |elems|fs|c fields]; try reflexivity.
    rewrite runtime_toRaw_unfold, toRaw_unfold. apply toRaw_layers_fold.
    intros [k v] Hin Hk. cbn [fst snd] in *.
    cbn [in_order] in Hok. rewrite forallb_forall in Hok.
    specialize (Hok _ Hin). cbn [fst snd] in Hok. rewrite Hk in Hok. cbn [orb] in Hok.
    assert (Hdepth : Reference.depth v <= n).
    { cbn [Reference.depth] in Hn.
      pose proof (@fold_max_ge _ (fun kv => Reference.depth (snd kv)) fields (k, v) Hin)
        as Hle.
      cbn [snd] in Hle. lia. }
    assert (Hnested : forall c' fs',
               Reference.depth (VSer c' fs') <= n ->
               negb (has_own "toRaw" fs') && in_order (VSer c' fs') = true ->
               Runtime.call_nested classes (VSer c' fs') = Ok (toRaw [] (VSer c' fs'))).
    { intros c' fs' Hd Hc. apply andb_true_iff in Hc as [Hown Hin'].
      apply negb_true_iff in Hown.
      unfold Runtime.call_nested, Runtime.dispatch_toRaw. rewrite Hown, Hbase.
      now apply IH. }
    destruct v as [| | | | |elems|fs'|c' fs']; try reflexivity.
    + cbn [Runtime.convert raw_of].
      enough (Hall : Runtime.convert_all classes elems = Ok (map raw_of_each elems))
        by now rewrite Hall.
      assert (Hd : forall each, In each elems -> Reference.depth each <= n).
      { intros each Hin'. cbn [Reference.depth] in Hdepth.
        pose proof (@fold_max_ge _ Reference.depth elems each Hin'). lia. }
      rewrite forallb_forall in Hok. clear - Hok Hd Hnested.
      induction elems as [|each tl IHe]; [reflexivity|].
      cbn [Runtime.convert_all map].
      assert (Heach : Runtime.convert_each classes each = Ok (raw_of_each each)).
      { specialize (Hok each (or_introl eq_refl)).
        specialize (Hd each (or_introl eq_refl)).
        destruct each as [| | | | |es|fs|c' fs']; try reflexivity.
        cbn [Runtime.convert_each raw_of_each].
        pose proof Hd as Hd'. cbn [Reference.depth] in Hd'.
        assert (Hn' : Reference.depth (VSer c' fs') <= n) by (cbn [Reference.depth]; lia).
        now rewrite (Hnested c' fs' Hn' Hok). }
      rewrite Heach. cbn [bind].
      rewrite IHe; [reflexivity | |].
      * intros x Hx. apply Hok. now right.
      * intros x Hx. apply Hd. now right.
    + cbn [Runtime.convert raw_of].
      assert (Hn' : Reference.depth (VSer c' fs') <= n) by lia.
      now rewrite (Hnested c' fs' Hn' Hok).
Qed.

Lemma runtime_toRaw_in_order (classes : string -> Runtime.class_def)
      (this : value) (xs : list string) :
  (forall c, Runtime.toRaw_override (classes c) = None) ->
  in_order this = true ->
  Runtime.toRaw classes xs this = Ok (toRaw xs this).
Proof.
  intros Hbase Hok.
  exact (@runtime_toRaw_agrees classes (Reference.depth this) Hbase this xs (le_n _) Hok).
Qed.
